(** * Solar orbit predictor: the numeric core of [orbitalMath.ts]

    A shallow embedding of the orbital mathematics of the repository
    ([dateToJulianDay], [solveKepler], [calculatePlanetPosition],
    [getOrbitalEllipse], [generateOrbitalPath],
    [calculatePerihelionPosition]) and of [calculateRelativePosition] from
    the coordinate-transformation module, together with the properties the
    specification states about them.

    JavaScript numbers are modelled as the real numbers extended with
    [NaN], [+Infinity] and [-Infinity]: arithmetic on finite values is
    exact (no binary64 rounding, no overflow), [Math.PI] is the real pi and
    the two signed zeros are identified.  A zero divisor is therefore read
    as [+0].  A statement that holds of this exact arithmetic only, and not
    of the binary64 evaluation up to the last bit, says so. *)

From Stdlib Require Import Reals Lra Lia Psatz List ZArith String Bool.
Import ListNotations.

Open Scope R_scope.

(** ** JavaScript numbers *)

Module JS.

Inductive number : Type :=
| Fin (r : R)
| PInf
| NInf
| NaN.

Definition Rltb (a b : R) : bool := if Rlt_dec a b then true else false.
Definition Reqb (a b : R) : bool := if Req_dec_T a b then true else false.

(** Truncation towards zero, the rounding of the remainder operator. *)
Definition Rtrunc (r : R) : R :=
  if Rle_dec 0 r then IZR (Int_part r) else - IZR (Int_part (- r)).

Definition neg (a : number) : number :=
  match a with
  | Fin r => Fin (- r)
  | PInf => NInf
  | NInf => PInf
  | NaN => NaN
  end.

Definition add (a b : number) : number :=
  match a, b with
  | Fin r, Fin s => Fin (r + s)
  | NaN, _ | _, NaN => NaN
  | PInf, NInf | NInf, PInf => NaN
  | PInf, _ | _, PInf => PInf
  | NInf, _ | _, NInf => NInf
  end.

Definition sub (a b : number) : number := add a (neg b).

(** The infinity of the sign of [r], [NaN] when [r] is zero. *)
Definition scaleInf (r : R) (i : number) : number :=
  if Rltb 0 r then i else if Rltb r 0 then neg i else NaN.

Definition mul (a b : number) : number :=
  match a, b with
  | Fin r, Fin s => Fin (r * s)
  | NaN, _ | _, NaN => NaN
  | Fin r, i | i, Fin r => scaleInf r i
  | PInf, PInf | NInf, NInf => PInf
  | PInf, NInf | NInf, PInf => NInf
  end.

Definition div (a b : number) : number :=
  match a, b with
  | Fin r, Fin s => if Reqb s 0 then scaleInf r PInf else Fin (r / s)
  | NaN, _ | _, NaN => NaN
  | Fin _, _ => Fin 0
  | i, Fin s => if Rltb s 0 then neg i else i
  | _, _ => NaN
  end.

(** The [%] operator: the remainder has the sign of the dividend. *)
Definition rem (a b : number) : number :=
  match a, b with
  | Fin r, Fin s => if Reqb s 0 then NaN else Fin (r - s * Rtrunc (r / s))
  | Fin r, PInf | Fin r, NInf => Fin r
  | _, _ => NaN
  end.

Definition isNaN (a : number) : bool :=
  match a with NaN => true | _ => false end.

Definition isFinite (a : number) : bool :=
  match a with Fin _ => true | _ => false end.

(** [a < b], [a > b] and [a === b]; every comparison with [NaN] is false. *)
Definition lt (a b : number) : bool :=
  match a, b with
  | Fin r, Fin s => Rltb r s
  | NaN, _ | _, NaN => false
  | NInf, NInf | PInf, _ | _, NInf => false
  | _, _ => true
  end.

Definition gt (a b : number) : bool := lt b a.

Definition strictEq (a b : number) : bool :=
  match a, b with
  | Fin r, Fin s => Reqb r s
  | PInf, PInf | NInf, NInf => true
  | _, _ => false
  end.

End JS.

Export JS.

Declare Scope js_scope.
Delimit Scope js_scope with js.
Bind Scope js_scope with number.
Infix "+" := add : js_scope.
Infix "-" := sub : js_scope.
Infix "*" := mul : js_scope.
Infix "/" := div : js_scope.
Notation "a 'mod' b" := (rem a b) : js_scope.
Infix ">" := gt : js_scope.
Infix "<" := lt : js_scope.
Infix "===" := strictEq (at level 70, no associativity) : js_scope.

(** ** The [Math] object *)

Module Math.

Definition PI : number := Fin Rtrigo1.PI.

Definition sin (a : number) : number :=
  match a with Fin r => Fin (Rtrigo_def.sin r) | _ => NaN end.

Definition cos (a : number) : number :=
  match a with Fin r => Fin (Rtrigo_def.cos r) | _ => NaN end.

(** At a pole of the tangent the result is the infinity of the sign of the
    sine. *)
Definition tan (a : number) : number :=
  match a with
  | Fin r =>
      if Reqb (Rtrigo_def.cos r) 0
      then (if Rltb 0 (Rtrigo_def.sin r) then PInf else NInf)
      else Fin (Rtrigo1.tan r)
  | _ => NaN
  end.

Definition atan (a : number) : number :=
  match a with
  | Fin r => Fin (Ratan.atan r)
  | PInf => Fin (Rtrigo1.PI / 2)
  | NInf => Fin (- (Rtrigo1.PI / 2))
  | NaN => NaN
  end.

Definition sqrt (a : number) : number :=
  match a with
  | Fin r => if Rltb r 0 then NaN else Fin (R_sqrt.sqrt r)
  | PInf => PInf
  | _ => NaN
  end.

Definition abs (a : number) : number :=
  match a with
  | Fin r => Fin (Rabs r)
  | PInf | NInf => PInf
  | NaN => NaN
  end.

Definition floor (a : number) : number :=
  match a with
  | Fin r => Fin (IZR (Int_part r))
  | other => other
  end.

(** [Math.min] and [Math.max] of two arguments: [NaN] when either is. *)
Definition min (a b : number) : number :=
  match a, b with
  | NaN, _ | _, NaN => NaN
  | _, _ => if lt b a then b else a
  end.

Definition max (a b : number) : number :=
  match a, b with
  | NaN, _ | _, NaN => NaN
  | _, _ => if lt a b then b else a
  end.

End Math.

(** ** The console and the effects of the code

    The functions log to the console, may throw, and [solveKepler] loops
    without a bound.  A computation takes the console, and either runs out
    of fuel ([None]) or ends, normally or by an exception, with the console
    it leaves. *)

Inductive level : Type := LOG | ERROR.

Record LogEntry : Type := { lvl : level; message : string }.

Definition Console : Type := list LogEntry.

Inductive result (A : Type) : Type :=
| Ok (a : A)
| Exn (error : string).
Arguments Ok {A} a.
Arguments Exn {A} error.

Definition IO (A : Type) : Type := Console -> option (result A * Console).

Definition ret {A} (a : A) : IO A := fun w => Some (Ok a, w).

Definition throw {A} (error : string) : IO A := fun w => Some (Exn error, w).

Definition bind {A B} (m : IO A) (k : A -> IO B) : IO B :=
  fun w =>
    match m w with
    | None => None
    | Some (Exn error, w') => Some (Exn error, w')
    | Some (Ok a, w') => k a w'
    end.

Definition tryCatch {A} (body : IO A) (handler : string -> IO A) : IO A :=
  fun w =>
    match body w with
    | None => None
    | Some (Exn error, w') => handler error w'
    | Some (Ok a, w') => Some (Ok a, w')
    end.

(** A loop that has not ended within its fuel. *)
Definition liftFuel {A} (o : option A) : IO A :=
  fun w => match o with Some a => Some (Ok a, w) | None => None end.

Definition console_log (msg : string) : IO unit :=
  fun w => Some (Ok tt, w ++ [{| lvl := LOG; message := msg |}]).

Definition console_error (msg : string) : IO unit :=
  fun w => Some (Ok tt, w ++ [{| lvl := ERROR; message := msg |}]).

Definition when (c : bool) (m : IO unit) : IO unit := if c then m else ret tt.

Notation "x <- m ;; k" := (bind m (fun x => k))
  (at level 61, m at next level, right associativity).
Notation "m ;;; k" := (bind m (fun _ => k))
  (at level 61, right associativity).

(** What a computation returns, without the console it leaves. *)
Definition value {A} (m : IO A) (w : Console) : option (result A) :=
  option_map fst (m w).

(** ** Data model ([types.ts]) *)

Record Planet : Type := {
  name : string;
  semiMajorAxis : number;
  eccentricity : number;
  inclination : number;
  longitudeOfAscendingNode : number;
  argumentOfPeriapsis : number;
  meanAnomaly : number;
  orbitalPeriod : number;
  radius : number;
  color : string
}.

Record OrbitalPosition : Type := { x : number; y : number; z : number }.

(** A [Date] object, seen through the methods the code calls on it.  An
    invalid date is one whose [getTime()] is [NaN]; [toISOString()] throws a
    [RangeError] on it. *)
Record Date : Type := {
  getTime : number;
  getFullYear : number;
  getMonth : number;
  getDate : number;
  getHours : number;
  getMinutes : number;
  getSeconds : number;
  isoString : string
}.

Definition toISOString (d : Date) : IO string :=
  if isNaN (getTime d) then throw "RangeError: Invalid time value"
  else ret (isoString d).

Record SpaceTime : Type := { date : Date; julianDay : number }.

Module THREE.
Record Vector3 : Type := { x : number; y : number; z : number }.
End THREE.

Definition origin : OrbitalPosition := {| x := Fin 0; y := Fin 0; z := Fin 0 |}.

(** ** [orbitalMath.ts] *)

Open Scope string_scope.
Open Scope js_scope.

Definition J2000 : number := Fin 2451545.

Definition degToRad (degrees : number) : IO number :=
  let result := degrees * Math.PI / Fin 180 in
  if isNaN result || negb (isFinite result) then
    console_error "[DEBUG] degToRad: Invalid input or result" ;;;
    ret (Fin 0)
  else ret result.

Definition radToDeg (radians : number) : IO number :=
  let result := radians * Fin 180 / Math.PI in
  if isNaN result || negb (isFinite result) then
    console_error "[DEBUG] radToDeg: Invalid input or result" ;;;
    ret (Fin 0)
  else ret result.

(** The Julian Day computed from the calendar fields (lines 34-42). *)
Definition rawJulianDay (date : Date) : number :=
  let a := Math.floor ((Fin 14 - (getMonth date + Fin 1)) / Fin 12) in
  let y := getFullYear date + Fin 4800 - a in
  let m := (getMonth date + Fin 1) + Fin 12 * a - Fin 3 in
  let jd := getDate date + Math.floor ((Fin 153 * m + Fin 2) / Fin 5)
            + Fin 365 * y + Math.floor (y / Fin 4) - Math.floor (y / Fin 100)
            + Math.floor (y / Fin 400) - Fin 32045 in
  let hours := getHours date + getMinutes date / Fin 60
               + getSeconds date / Fin 3600 in
  jd + (hours / Fin 24 - Fin (5 / 10)).

Definition dateToJulianDay (date : Date) : IO number :=
  tryCatch
    (console_log "[DEBUG] dateToJulianDay called with:" ;;;
     (* [date instanceof Date] holds by typing *)
     if isNaN (getTime date) then
       console_error "[DEBUG] dateToJulianDay: Invalid date object" ;;;
       ret J2000
     else
       let jd := rawJulianDay date in
       if isNaN jd || negb (isFinite jd) then
         _ <- toISOString date ;;
         console_error "[DEBUG] dateToJulianDay: Invalid Julian Day calculated" ;;;
         ret J2000
       else
         _ <- toISOString date ;;
         console_log "[DEBUG] dateToJulianDay result:" ;;;
         ret jd)
    (fun _ =>
       console_error "[DEBUG] dateToJulianDay: Exception thrown" ;;;
       ret J2000).

Definition centuriesSinceJ2000 (julianDay : number) : number :=
  (julianDay - Fin 2451545) / Fin 36525.

Definition defaultTolerance : number := Fin (1 / 100000000).

(** One pass of the [do ... while] body: the Newton step [delta] at [E]. *)
Definition keplerDelta (M e E : number) : number :=
  (M - E + e * Math.sin E) / (Fin 1 - e * Math.cos E).

(** The [do ... while] loop of [solveKepler]; [None] when [fuel] passes of
    the body do not reach the exit. *)
Fixpoint keplerLoop (fuel : nat) (M e tolerance E : number) : option number :=
  match fuel with
  | O => None
  | S fuel' =>
      let delta := keplerDelta M e E in
      let E' := E + delta in
      if Math.abs delta > tolerance
      then keplerLoop fuel' M e tolerance E'
      else Some E'
  end.

Definition solveKepler (fuel : nat) (M e tolerance : number) : option number :=
  keplerLoop fuel M e tolerance M.

Definition calculatePlanetPosition (fuel : nat) (planet : Planet)
    (spaceTime : SpaceTime) : IO OrbitalPosition :=
  tryCatch
    (_ <- toISOString (date spaceTime) ;;
     console_log "[DEBUG] calculatePlanetPosition called for:" ;;;
     if semiMajorAxis planet === Fin 0 then
       console_log "[DEBUG] calculatePlanetPosition: Sun position at origin" ;;;
       ret origin
     else
     (* [!planet || typeof planet !== 'object'] is false by typing *)
     if isNaN (julianDay spaceTime) then
       console_error "[DEBUG] calculatePlanetPosition: Invalid spaceTime" ;;;
       ret origin
     else
     let T := centuriesSinceJ2000 (julianDay spaceTime) in
     let M := meanAnomaly planet
              + Fin 360 * (julianDay spaceTime - Fin 2451545)
                / orbitalPeriod planet in
     let M := M mod Fin 360 in
     when (isNaN M || negb (isFinite M))
       (console_error "[DEBUG] calculatePlanetPosition: Invalid mean anomaly M") ;;;
     Mrad <- degToRad M ;;
     E <- liftFuel (solveKepler fuel Mrad (eccentricity planet) defaultTolerance) ;;
     when (isNaN E || negb (isFinite E))
       (console_error "[DEBUG] calculatePlanetPosition: Invalid eccentric anomaly E") ;;;
     let r := semiMajorAxis planet * (Fin 1 - eccentricity planet * Math.cos E) in
     when (isNaN r || negb (isFinite r) || (r < Fin 0))
       (console_error "[DEBUG] calculatePlanetPosition: Invalid distance r") ;;;
     let nu := Fin 2 * Math.atan
                 (Math.sqrt ((Fin 1 + eccentricity planet)
                             / (Fin 1 - eccentricity planet))
                  * Math.tan (E / Fin 2)) in
     when (isNaN nu || negb (isFinite nu))
       (console_error "[DEBUG] calculatePlanetPosition: Invalid true anomaly nu") ;;;
     omega <- degToRad (argumentOfPeriapsis planet) ;;
     let argumentOfLatitude := omega + nu in
     when (isNaN argumentOfLatitude || negb (isFinite argumentOfLatitude))
       (console_error "[DEBUG] calculatePlanetPosition: Invalid argument of latitude") ;;;
     node1 <- degToRad (longitudeOfAscendingNode planet) ;;
     let sinOmega := Math.sin node1 in
     node2 <- degToRad (longitudeOfAscendingNode planet) ;;
     let cosOmega := Math.cos node2 in
     incl1 <- degToRad (inclination planet) ;;
     let sinI := Math.sin incl1 in
     incl2 <- degToRad (inclination planet) ;;
     let cosI := Math.cos incl2 in
     let sinU := Math.sin argumentOfLatitude in
     let cosU := Math.cos argumentOfLatitude in
     let x := r * (cosOmega * cosU - sinOmega * sinU * cosI) in
     let y := r * (sinOmega * cosU + cosOmega * sinU * cosI) in
     let z := r * sinU * sinI in
     let result := {| x := x; y := y; z := z |} in
     if isNaN x || isNaN y || isNaN z
        || negb (isFinite x) || negb (isFinite y) || negb (isFinite z) then
       console_error "[DEBUG] calculatePlanetPosition: Invalid position calculated" ;;;
       ret origin
     else
       console_log "[DEBUG] calculatePlanetPosition result for" ;;;
       ret result)
    (fun _ =>
       console_error "[DEBUG] calculatePlanetPosition: Exception thrown" ;;;
       ret origin).

Record Ellipse : Type := {
  a : number;
  b : number;
  ellipseInclination : number;
  longitudeOfNode : number;
  ellipseArgumentOfPeriapsis : number
}.

Definition getOrbitalEllipse (planet : Planet) : Ellipse :=
  let a := semiMajorAxis planet in
  let b := a * Math.sqrt (Fin 1 - eccentricity planet * eccentricity planet) in
  {| a := a;
     b := b;
     ellipseInclination := inclination planet * Math.PI / Fin 180;
     longitudeOfNode := longitudeOfAscendingNode planet * Math.PI / Fin 180;
     ellipseArgumentOfPeriapsis := argumentOfPeriapsis planet * Math.PI / Fin 180 |}.

(** The three rotations of the body of the [for] loop of
    [generateOrbitalPath] (lines 269-292), applied to the point [(x, y, 0)]
    of the orbital plane: argument of periapsis about Z, inclination about
    X, longitude of the ascending node about Z. *)
Definition applyRotations (ellipse : Ellipse) (x y : number) : THREE.Vector3 :=
  let cosW := Math.cos (ellipseArgumentOfPeriapsis ellipse) in
  let sinW := Math.sin (ellipseArgumentOfPeriapsis ellipse) in
  let xRotated := x * cosW - y * sinW in
  let yRotated := x * sinW + y * cosW in
  let cosI := Math.cos (ellipseInclination ellipse) in
  let sinI := Math.sin (ellipseInclination ellipse) in
  let xFinal := xRotated in
  let yFinal := yRotated * cosI in
  let zFinal := yRotated * sinI in
  let cosOmega := Math.cos (longitudeOfNode ellipse) in
  let sinOmega := Math.sin (longitudeOfNode ellipse) in
  let xNode := xFinal * cosOmega - yFinal * sinOmega in
  let yNode := xFinal * sinOmega + yFinal * cosOmega in
  let zNode := zFinal in
  {| THREE.x := xNode; THREE.y := yNode; THREE.z := zNode |}.

(** The body of the [for] loop: the point pushed for the sample at
    [angle]. *)
Definition pathPoint (ellipse : Ellipse) (angle : number) : THREE.Vector3 :=
  let x := a ellipse * Math.cos angle in
  let y := b ellipse * Math.sin angle in
  applyRotations ellipse x y.

(** [for (let i = 0; i <= segments; i++)], for a segment count that is a
    natural number: the points for [i = 0 .. segments], in order. *)
Definition generateOrbitalPath (planet : Planet) (segments : nat)
    : list THREE.Vector3 :=
  let ellipse := getOrbitalEllipse planet in
  map (fun i : nat =>
         let angle := (Fin (INR i) / Fin (INR segments)) * Fin 2 * Math.PI in
         pathPoint ellipse angle)
      (seq 0 (S segments)).

Definition calculatePerihelionPosition (planet : Planet) : THREE.Vector3 :=
  let point := {| THREE.x := semiMajorAxis planet * (Fin 1 - eccentricity planet);
                  THREE.y := Fin 0;
                  THREE.z := Fin 0 |} in
  let ellipse := getOrbitalEllipse planet in
  let cosW := Math.cos (ellipseArgumentOfPeriapsis ellipse) in
  let sinW := Math.sin (ellipseArgumentOfPeriapsis ellipse) in
  let x1 := THREE.x point * cosW - THREE.y point * sinW in
  let cosI := Math.cos (ellipseInclination ellipse) in
  let sinI := Math.sin (ellipseInclination ellipse) in
  let y2 := THREE.y point * cosI in
  let z2 := THREE.y point * sinI in
  let cosOmega := Math.cos (longitudeOfNode ellipse) in
  let sinOmega := Math.sin (longitudeOfNode ellipse) in
  let xFinal := x1 * cosOmega - y2 * sinOmega in
  let yFinal := x1 * sinOmega + y2 * cosOmega in
  {| THREE.x := xFinal; THREE.y := yFinal; THREE.z := z2 |}.

(** ** [coordinateTransform.ts] *)

Definition calculateRelativePosition (fuel : nat) (planetA planetB : Planet)
    (spaceTime : SpaceTime) : IO OrbitalPosition :=
  posA <- calculatePlanetPosition fuel planetA spaceTime ;;
  posB <- calculatePlanetPosition fuel planetB spaceTime ;;
  ret {| x := x posB - x posA; y := y posB - y posA; z := z posB - z posA |}.

(** ** [orbitalMath.ts]: screen coordinates *)

Module Screen.
Record ScreenPosition : Type := { x : number; y : number }.
End Screen.

(** [orbitalToScreenCoordinates], with the projection angle (default 0)
    passed explicitly.  The first validation (a missing position, or
    coordinates that are not numbers) is false by typing. *)
Definition orbitalToScreenCoordinates (orbitalPos : OrbitalPosition)
    (centerX centerY scale projectionAngle : number) : IO Screen.ScreenPosition :=
  tryCatch
    (console_log "[DEBUG] orbitalToScreenCoordinates called with:" ;;;
     if isNaN centerX || isNaN centerY || isNaN scale then
       console_error "[DEBUG] orbitalToScreenCoordinates: Invalid transform parameters" ;;;
       ret {| Screen.x := Fin 400; Screen.y := Fin 300 |}
     else
     angle1 <- degToRad projectionAngle ;;
     let cosAngle := Math.cos angle1 in
     angle2 <- degToRad projectionAngle ;;
     let sinAngle := Math.sin angle2 in
     if isNaN cosAngle || isNaN sinAngle then
       console_error "[DEBUG] orbitalToScreenCoordinates: Invalid projection angle" ;;;
       ret {| Screen.x := centerX; Screen.y := centerY |}
     else
     let projectedX := x orbitalPos * cosAngle - y orbitalPos * sinAngle in
     let projectedY := z orbitalPos in
     let screenX := centerX + projectedX * scale in
     let screenY := centerY + projectedY * scale in
     let result := {| Screen.x := screenX; Screen.y := screenY |} in
     if isNaN screenX || isNaN screenY
        || negb (isFinite screenX) || negb (isFinite screenY) then
       console_error "[DEBUG] orbitalToScreenCoordinates: Invalid screen coordinates calculated" ;;;
       ret {| Screen.x := centerX; Screen.y := centerY |}
     else
       console_log "[DEBUG] orbitalToScreenCoordinates result:" ;;;
       ret result)
    (fun _ =>
       console_error "[DEBUG] orbitalToScreenCoordinates: Exception thrown" ;;;
       ret {| Screen.x := Fin 400; Screen.y := Fin 300 |}).

(** ** [coordinateTransform.ts]: positions about a centre planet *)

(** [Array.prototype.map] with a callback that has effects: the elements
    are visited in order. *)
Fixpoint mapIO {A B : Type} (f : A -> IO B) (l : list A) : IO (list B) :=
  match l with
  | [] => ret []
  | a :: rest => b <- f a ;; bs <- mapIO f rest ;; ret (b :: bs)
  end.

Record RelativeEntry : Type := {
  entryPlanet : Planet;
  entryPosition : OrbitalPosition
}.

Definition calculateRelativePlanetPositions (fuel : nat) (planets : list Planet)
    (centerPlanet : Planet) (spaceTime : SpaceTime) : IO (list RelativeEntry) :=
  mapIO
    (fun planet =>
       position <- calculateRelativePosition fuel centerPlanet planet spaceTime ;;
       ret {| entryPlanet := planet; entryPosition := position |})
    (filter (fun planet => negb (String.eqb (name planet) (name centerPlanet)))
       planets).

(** [planets.find(...) || null]; a planet object is never falsy. *)
Definition findPlanetByName (planets : list Planet) (name_ : string)
    : option Planet :=
  find (fun planet => String.eqb (name planet) name_) planets.

(** ** [App.tsx]: the zoom level *)

(** The state updates of [handleZoomIn] and [handleZoomOut]. *)
Definition handleZoomIn (prev : number) : number :=
  Math.min (prev + Fin (2 / 10)) (Fin 5).

Definition handleZoomOut (prev : number) : number :=
  Math.max (prev - Fin (2 / 10)) (Fin (1 / 10)).

(** ** [moonData.ts] and the moons of [SolarSystem.tsx] *)

Module MoonData.
Record Moon : Type := {
  name : string;
  semiMajorAxis : number;
  eccentricity : number;
  inclination : number;
  radius : number;
  color : string;
  orbitalPeriod : number;
  meanAnomaly : number
}.
End MoonData.

(** The position [Moon3D] gives its mesh: [moonX], [moonY], [moonZ]. *)
Definition moon3DPosition (moon : MoonData.Moon) (planetPosition : OrbitalPosition)
    (spaceTime : SpaceTime) : OrbitalPosition :=
  let moonAngle :=
    ((julianDay spaceTime mod MoonData.orbitalPeriod moon)
     / MoonData.orbitalPeriod moon) * Fin 2 * Math.PI
    + (MoonData.meanAnomaly moon * Math.PI / Fin 180) in
  let moonDistance := MoonData.semiMajorAxis moon / Fin 500000 in
  let moonX := x planetPosition + moonDistance * Math.cos moonAngle in
  let moonY := y planetPosition in
  let moonZ := z planetPosition + moonDistance * Math.sin moonAngle in
  {| x := moonX; y := moonY; z := moonZ |}.

Close Scope js_scope.
Close Scope string_scope.

(** * Vocabulary of the statements *)

(** ** Computations and positions *)

(** A computation is oblivious when what it returns does not depend on the
    console it is started with. *)
Definition oblivious {A} (m : IO A) : Prop :=
  forall w1 w2 : Console, value m w1 = value m w2.

(** What [calculatePlanetPosition] returns, when it returns. *)
Definition position (fuel : nat) (planet : Planet) (spaceTime : SpaceTime)
    : option OrbitalPosition :=
  match value (calculatePlanetPosition fuel planet spaceTime) [] with
  | Some (Ok pos) => Some pos
  | _ => None
  end.

Definition difference (p q : OrbitalPosition) : OrbitalPosition :=
  {| x := sub (x p) (x q); y := sub (y p) (y q); z := sub (z p) (z q) |}.

Definition negate (p : OrbitalPosition) : OrbitalPosition :=
  {| x := neg (x p); y := neg (y p); z := neg (z p) |}.

Definition mapResult {A B} (f : A -> B) (r : result A) : result B :=
  match r with Ok a => Ok (f a) | Exn error => Exn error end.


(** ** The orbital path *)

(** The angle of sample [i] of [segments]: [(i / segments) * 2 * Math.PI]. *)
Definition sampleAngle (i segments : nat) : number :=
  mul (mul (div (Fin (INR i)) (Fin (INR segments))) (Fin 2)) Math.PI.

(** ** Kepler's equation over the reals *)

(** The step [delta] of the loop body at the finite values [M], [e], [E]. *)
Definition newtonDelta (M e E : R) : R :=
  (M - E + e * sin E) / (1 - e * cos E).

(** The residual of Kepler's equation at [E]. *)
Definition keplerResidual (M e E : R) : R := E - e * sin E - M.

(** Between the root and [PI], where the residual is nonnegative and sine is
    concave, the iterates decrease towards the root. *)
Definition inBasin (M e E : R) : Prop :=
  M <= E <= PI /\ 0 <= keplerResidual M e E.

(** Translation by a period of sine and cosine. *)
Definition isPeriod (p : R) : Prop :=
  forall t : R, sin (t + p) = sin t /\ cos (t + p) = cos t.

(** The cycle of the iteration used against unconditional termination. *)

(** The length of the two steps of the cycle. *)
Definition cycleStep : R := 17 / 4.

(** The mean anomaly, which is also the first iterate. *)
Definition cycleAnomaly : R := PI + atan cycleStep - cycleStep.

Definition cycleEccentricity : R :=
  cycleStep / (sin cycleAnomaly + cycleStep * cos cycleAnomaly).

(** ** Regular orbits *)

(** The mean anomaly at the instant, normalised by the remainder of 360. *)
Definition meanAnomalyDegrees (m_ P_ jd_ : R) : R :=
  let M := m_ + 360 * (jd_ - 2451545) / P_ in
  M - 360 * Rtrunc (M / 360).

Definition meanAnomalyRadians (m_ P_ jd_ : R) : R :=
  meanAnomalyDegrees m_ P_ jd_ * PI / 180.

(** The point at distance [r] and argument of latitude [U] on the orbit of
    inclination [i_] and ascending node [node_] (degrees). *)
Definition pointAt (i_ node_ r U : R) : OrbitalPosition :=
  let node := node_ * PI / 180 in
  let incl := i_ * PI / 180 in
  {| x := Fin (r * (cos node * cos U - sin node * sin U * cos incl));
     y := Fin (r * (sin node * cos U + cos node * sin U * cos incl));
     z := Fin (r * sin U * sin incl) |}.

(** A valid date with the given local calendar fields. *)
Definition calendarDate (time year month day hours minutes seconds : R)
    (iso : string) : Date :=
  {| getTime := Fin time; getFullYear := Fin year; getMonth := Fin month;
     getDate := Fin day; getHours := Fin hours; getMinutes := Fin minutes;
     getSeconds := Fin seconds; isoString := iso |}.

(** Every value the computation returns satisfies [P]. *)
Definition returnsOnly {A} (P : A -> Prop) (m : IO A) : Prop :=
  forall (w : Console) (a : A) (w' : Console), m w = Some (Ok a, w') -> P a.

(** All three coordinates are finite numbers. *)
Definition finitePosition (p : OrbitalPosition) : Prop :=
  isFinite (x p) = true /\ isFinite (y p) = true /\ isFinite (z p) = true.

(** The Euclidean length of a vector. *)
Definition vectorLength (v : THREE.Vector3) : number :=
  Math.sqrt (add (add (mul (THREE.x v) (THREE.x v)) (mul (THREE.y v) (THREE.y v)))
               (mul (THREE.z v) (THREE.z v))).

(** The point all of whose coordinates are [NaN]. *)
Definition nanVector : THREE.Vector3 :=
  {| THREE.x := NaN; THREE.y := NaN; THREE.z := NaN |}.

(** The componentwise sum of two positions. *)
Definition translate (p q : OrbitalPosition) : OrbitalPosition :=
  {| x := add (x p) (x q); y := add (y p) (y q); z := add (z p) (z q) |}.

(** The two zoom buttons, and the zoom level after a series of clicks. *)
Inductive ZoomAction : Type := ZoomIn | ZoomOut.

Definition applyZoom (level : number) (action : ZoomAction) : number :=
  match action with
  | ZoomIn => handleZoomIn level
  | ZoomOut => handleZoomOut level
  end.

Definition io : MoonData.Moon :=
  {| MoonData.name := "Io"; MoonData.semiMajorAxis := Fin 421700;
     MoonData.eccentricity := Fin (41 / 10000);
     MoonData.inclination := Fin (5 / 100); MoonData.radius := Fin (18216 / 10);
     MoonData.color := "#FFFFCC"; MoonData.orbitalPeriod := Fin (177 / 100);
     MoonData.meanAnomaly := Fin 0 |}.

(** The true anomaly of line 122, at finite [e] and [E]. *)
Definition trueAnomalyOf (e E : R) : number :=
  mul (Fin 2)
    (Math.atan (mul (Math.sqrt (Fin ((1 + e) / (1 - e))))
                    (Math.tan (Fin (E / 2))))).

(** A body on a regular orbit: finite elements with a > 0, an eccentricity
    between 0 and 0.9 and a positive orbital period. *)
Definition regularOrbit (planet : Planet) : Prop :=
  exists a_ e_ P_ : R,
    semiMajorAxis planet = Fin a_ /\ eccentricity planet = Fin e_
    /\ orbitalPeriod planet = Fin P_
    /\ 0 < a_ /\ 0 <= e_ <= 9 / 10 /\ 0 < P_
    /\ isFinite (inclination planet) = true
    /\ isFinite (longitudeOfAscendingNode planet) = true
    /\ isFinite (argumentOfPeriapsis planet) = true
    /\ isFinite (meanAnomaly planet) = true.

(** An instant with a valid date and a finite Julian Day. *)
Definition regularInstant (spaceTime : SpaceTime) : Prop :=
  isNaN (getTime (date spaceTime)) = false
  /\ isFinite (julianDay spaceTime) = true.

(** A body that [calculatePlanetPosition] places: the central body, or a
    body on a regular orbit. *)
Definition placedBody (planet : Planet) : Prop :=
  semiMajorAxis planet = Fin 0 \/ regularOrbit planet.

(** ** Sample data *)

Definition invalidDate : Date :=
  {| getTime := NaN; getFullYear := NaN; getMonth := NaN; getDate := NaN;
     getHours := NaN; getMinutes := NaN; getSeconds := NaN;
     isoString := EmptyString |}.

Definition validDate : Date :=
  {| getTime := Fin 946728000000; getFullYear := Fin 2000; getMonth := Fin 0;
     getDate := Fin 1; getHours := Fin 12; getMinutes := Fin 0;
     getSeconds := Fin 0; isoString := "2000-01-01T12:00:00.000Z" |}.

Definition sun : Planet :=
  {| name := "Sun"; semiMajorAxis := Fin 0; eccentricity := Fin 0;
     inclination := Fin 0; longitudeOfAscendingNode := Fin 0;
     argumentOfPeriapsis := Fin 0; meanAnomaly := Fin 0;
     orbitalPeriod := Fin 0; radius := Fin 696340; color := "#FFD700" |}.

(** Earth, as [planetData.ts] lists it. *)
Definition earth : Planet :=
  {| name := "Earth"; semiMajorAxis := Fin (15 / 10);
     eccentricity := Fin (16708 / 1000000); inclination := Fin 0;
     longitudeOfAscendingNode := Fin (348739 / 1000);
     argumentOfPeriapsis := Fin (114207 / 1000);
     meanAnomaly := Fin (357517 / 1000);
     orbitalPeriod := Fin (365256 / 1000);
     radius := Fin 6371; color := "#6B93D6" |}.

(** Mercury, Venus and Mars, as [planetData.ts] lists them. *)
Definition mercury : Planet :=
  {| name := "Mercury"; semiMajorAxis := Fin (8 / 10);
     eccentricity := Fin (205630 / 1000000); inclination := Fin (7005 / 1000);
     longitudeOfAscendingNode := Fin (48331 / 1000);
     argumentOfPeriapsis := Fin (29124 / 1000);
     meanAnomaly := Fin (174796 / 1000);
     orbitalPeriod := Fin (87969 / 1000);
     radius := Fin (24397 / 10); color := "#8C7853" |}.

Definition venus : Planet :=
  {| name := "Venus"; semiMajorAxis := Fin (12 / 10);
     eccentricity := Fin (6772 / 1000000); inclination := Fin (3394 / 1000);
     longitudeOfAscendingNode := Fin (76680 / 1000);
     argumentOfPeriapsis := Fin (54884 / 1000);
     meanAnomaly := Fin (50115 / 1000);
     orbitalPeriod := Fin (224701 / 1000);
     radius := Fin (60518 / 10); color := "#FFC649" |}.

Definition mars : Planet :=
  {| name := "Mars"; semiMajorAxis := Fin 2;
     eccentricity := Fin (93400 / 1000000); inclination := Fin (1850 / 1000);
     longitudeOfAscendingNode := Fin (49558 / 1000);
     argumentOfPeriapsis := Fin (286502 / 1000);
     meanAnomaly := Fin (19373 / 1000);
     orbitalPeriod := Fin (686980 / 1000);
     radius := Fin (33895 / 10); color := "#CD5C5C" |}.

(** The instant of the J2000.0 epoch. *)
Definition epoch : SpaceTime :=
  {| date := validDate; julianDay := Fin 2451545 |}.

(** A body on a circular orbit of inclination [i]. *)
Definition tilted (i : number) : Planet :=
  {| name := "tilted"; semiMajorAxis := Fin 1; eccentricity := Fin 0;
     inclination := i; longitudeOfAscendingNode := Fin 0;
     argumentOfPeriapsis := Fin 0; meanAnomaly := Fin 0;
     orbitalPeriod := Fin 1; radius := Fin 1; color := "#FFFFFF" |}.

(** A body in the reference plane with argument of periapsis [w_]. *)
Definition oriented (a_ e_ w_ : R) : Planet :=
  {| name := "oriented"; semiMajorAxis := Fin a_; eccentricity := Fin e_;
     inclination := Fin 0; longitudeOfAscendingNode := Fin 0;
     argumentOfPeriapsis := Fin w_; meanAnomaly := Fin 0;
     orbitalPeriod := Fin 1; radius := Fin 1; color := "#FFFFFF" |}.

Definition consoleWith (msg : string) : Console := [{| lvl := LOG; message := msg |}].

(** * Properties *)

(** ** Facts about the number model *)

Section NumberFacts.

Lemma Reqb_refl (r : R) : Reqb r r = true.
Proof. unfold Reqb. destruct (Req_dec_T r r); congruence. Qed.

Lemma Reqb_neq (r s : R) : r <> s -> Reqb r s = false.
Proof. unfold Reqb. destruct (Req_dec_T r s); congruence. Qed.

Lemma Rltb_lt (r s : R) : r < s -> Rltb r s = true.
Proof. unfold Rltb. destruct (Rlt_dec r s); tauto. Qed.

Lemma Rltb_ge (r s : R) : s <= r -> Rltb r s = false.
Proof. unfold Rltb. destruct (Rlt_dec r s); [lra | reflexivity]. Qed.

Lemma Rltb_true_iff (r s : R) : Rltb r s = true <-> r < s.
Proof. unfold Rltb. destruct (Rlt_dec r s); split; (congruence || tauto). Qed.

Lemma div_Fin (r s : R) : s <> 0 -> div (Fin r) (Fin s) = Fin (r / s).
Proof. intros H. unfold div. now rewrite Reqb_neq. Qed.

Lemma isFinite_Fin (n : number) : isFinite n = true -> exists r, n = Fin r.
Proof. destruct n; simpl; try discriminate. now exists r. Qed.

Lemma neg_sub (n m : number) : neg (sub n m) = sub m n.
Proof.
  destruct n, m; simpl; try reflexivity.
  f_equal. ring.
Qed.

Lemma toRadians_Fin (d : R) :
  div (mul (Fin d) Math.PI) (Fin 180) = Fin (d * PI / 180).
Proof. unfold Math.PI. simpl mul. apply div_Fin. lra. Qed.

End NumberFacts.

(** ** Evaluating arithmetic on finite numbers *)

Section FiniteArithmetic.

Variables r s : R.

Lemma add_Fin : add (Fin r) (Fin s) = Fin (r + s).
Proof. reflexivity. Qed.

Lemma sub_Fin : sub (Fin r) (Fin s) = Fin (r - s).
Proof. reflexivity. Qed.

Lemma mul_Fin : mul (Fin r) (Fin s) = Fin (r * s).
Proof. reflexivity. Qed.

Lemma sin_Fin : Math.sin (Fin r) = Fin (sin r).
Proof. reflexivity. Qed.

Lemma cos_Fin : Math.cos (Fin r) = Fin (cos r).
Proof. reflexivity. Qed.

Lemma abs_Fin : Math.abs (Fin r) = Fin (Rabs r).
Proof. reflexivity. Qed.

Lemma sqrt_Fin : 0 <= r -> Math.sqrt (Fin r) = Fin (sqrt r).
Proof. intros H. unfold Math.sqrt. now rewrite Rltb_ge. Qed.

Lemma gt_Fin : gt (Fin r) (Fin s) = Rltb s r.
Proof. reflexivity. Qed.

End FiniteArithmetic.

#[global] Arguments add : simpl never.
#[global] Arguments sub : simpl never.
#[global] Arguments mul : simpl never.
#[global] Arguments div : simpl never.
#[global] Arguments rem : simpl never.
#[global] Arguments Math.sin : simpl never.
#[global] Arguments Math.cos : simpl never.
#[global] Arguments Math.tan : simpl never.
#[global] Arguments Math.atan : simpl never.
#[global] Arguments Math.sqrt : simpl never.
#[global] Arguments Math.abs : simpl never.

Create Rewrite HintDb js.
#[global] Hint Rewrite add_Fin sub_Fin mul_Fin sin_Fin cos_Fin abs_Fin gt_Fin
  toRadians_Fin : js.
#[global] Hint Rewrite div_Fin using lra : js.
#[global] Hint Rewrite sqrt_Fin using lra : js.

Ltac js_eval := unfold Math.PI; autorewrite with js.

Section Angles.

Lemma deg_0 : 0 * PI / 180 = 0.
Proof. lra. Qed.

Lemma deg_90 : 90 * PI / 180 = PI / 2.
Proof. lra. Qed.

End Angles.

(** ** Running computations *)

Section Running.

Context {A B : Type}.

Lemma value_bind (m : IO A) (k : A -> IO B) (w : Console) :
  value (bind m k) w =
  match m w with
  | None => None
  | Some (Exn error, _) => Some (Exn error)
  | Some (Ok a, w') => value (k a) w'
  end.
Proof.
  unfold value, bind. destruct (m w) as [[[a0 | err] w'] |]; reflexivity.
Qed.

End Running.

Lemma degToRad_Fin (d : R) (w : Console) :
  degToRad (Fin d) w = Some (Ok (Fin (d * PI / 180)), w).
Proof. unfold degToRad. rewrite toRadians_Fin. reflexivity. Qed.

(** ** The central body *)

(** C4. When the semi-major axis is 0, [calculatePlanetPosition] returns
    the origin: for every instant (whatever its Julian Day, finite or not,
    and whatever its date), every other element field, every console and
    every amount of fuel. *)
Theorem central_body_at_origin :
  forall (fuel : nat) (planet : Planet) (spaceTime : SpaceTime) (w : Console),
    semiMajorAxis planet = Fin 0 ->
    value (calculatePlanetPosition fuel planet spaceTime) w = Some (Ok origin).
Proof.
  intros fuel planet spaceTime w Ha.
  unfold value, calculatePlanetPosition, tryCatch, bind, toISOString.
  destruct (isNaN (getTime (date spaceTime))); simpl.
  - reflexivity.
  - rewrite Ha. simpl. rewrite Reqb_refl. reflexivity.
Qed.

Lemma central_body_at_origin_witness :
  value (calculatePlanetPosition 0 sun {| date := invalidDate; julianDay := PInf |}) []
  = Some (Ok origin).
Proof. apply central_body_at_origin. reflexivity. Defined.

(** ** The Julian Day fallback *)

(** C7. [dateToJulianDay] returns exactly 2451545.0 for an invalid date,
    and also whenever the Julian Day it computes is not finite. *)
Theorem julian_day_fallback :
  forall (d : Date) (w : Console),
    isNaN (getTime d) = true \/ isFinite (rawJulianDay d) = false ->
    value (dateToJulianDay d) w = Some (Ok (Fin 2451545)).
Proof.
  intros d w H.
  unfold value, dateToJulianDay, tryCatch, bind, toISOString, console_log.
  destruct (isNaN (getTime d)) eqn:Ht; simpl.
  - reflexivity.
  - destruct H as [H | H]; [discriminate |].
    rewrite H. rewrite orb_true_r. reflexivity.
Qed.

Lemma julian_day_fallback_witness :
  value (dateToJulianDay invalidDate) [] = Some (Ok (Fin 2451545)).
Proof. apply julian_day_fallback. left. reflexivity. Defined.

Lemma floor_Fin (r : R) (k : Z) :
  IZR k <= r < IZR k + 1 -> Math.floor (Fin r) = Fin (IZR k).
Proof.
  intros H. unfold Math.floor. do 2 f_equal. symmetry.
  apply Int_part_spec. lra.
Qed.

(** The reference scenario: the calendar fields of noon, 1 January 2000
    give the Julian Day 2451545.0. *)
Example julian_day_of_J2000_noon :
  forall w : Console,
    value (dateToJulianDay validDate) w = Some (Ok (Fin 2451545)).
Proof.
  intros w.
  assert (Hraw : rawJulianDay validDate = Fin 2451545).
  { unfold rawJulianDay, validDate.
    cbn [getMonth getFullYear getDate getHours getMinutes getSeconds].
    js_eval.
    rewrite (floor_Fin _ 1) by lra. js_eval.
    rewrite (floor_Fin _ 306), (floor_Fin _ 1699), (floor_Fin _ 67),
      (floor_Fin _ 16) by lra.
    js_eval. f_equal. lra. }
  unfold value, dateToJulianDay, tryCatch, bind, toISOString, console_log.
  rewrite Hraw. reflexivity.
Qed.

(** ** Independence from the console *)

Section Oblivious.

Context {A B : Type}.

Lemma oblivious_ret (a : A) : oblivious (ret a).
Proof. intros w1 w2. reflexivity. Qed.

Lemma oblivious_throw (error : string) : oblivious (@throw A error).
Proof. intros w1 w2. reflexivity. Qed.

Lemma oblivious_liftFuel (o : option A) : oblivious (liftFuel o).
Proof. intros w1 w2. unfold value, liftFuel. destruct o; reflexivity. Qed.

Lemma oblivious_bind (m : IO A) (k : A -> IO B) :
  oblivious m -> (forall a, oblivious (k a)) -> oblivious (bind m k).
Proof.
  intros Hm Hk w1 w2. rewrite !value_bind.
  specialize (Hm w1 w2). unfold value in Hm.
  destruct (m w1) as [[[a1 | e1] w1'] |], (m w2) as [[[a2 | e2] w2'] |];
    simpl in Hm; try discriminate; try reflexivity.
  - injection Hm as ->. apply Hk.
  - injection Hm as ->. reflexivity.
Qed.

Lemma oblivious_tryCatch (body : IO A) (handler : string -> IO A) :
  oblivious body -> (forall error, oblivious (handler error)) ->
  oblivious (tryCatch body handler).
Proof.
  intros Hm Hk w1 w2. specialize (Hm w1 w2). unfold value, tryCatch in *.
  destruct (body w1) as [[[a1 | e1] w1'] |], (body w2) as [[[a2 | e2] w2'] |];
    simpl in Hm; try discriminate; try reflexivity.
  - injection Hm as ->. reflexivity.
  - injection Hm as ->. apply Hk.
Qed.

End Oblivious.

Lemma oblivious_console_log (msg : string) : oblivious (console_log msg).
Proof. intros w1 w2. reflexivity. Qed.

Lemma oblivious_console_error (msg : string) : oblivious (console_error msg).
Proof. intros w1 w2. reflexivity. Qed.

Ltac oblivious_step :=
  first
    [ progress cbv zeta
    | progress intros
    | apply oblivious_ret
    | apply oblivious_throw
    | apply oblivious_liftFuel
    | apply oblivious_console_log
    | apply oblivious_console_error
    | apply oblivious_bind
    | apply oblivious_tryCatch
    | match goal with
      | |- oblivious (if ?c then _ else _) => destruct c
      end ].

Ltac oblivious := repeat oblivious_step.

Lemma oblivious_when (c : bool) (m : IO unit) : oblivious m -> oblivious (when c m).
Proof. intros H. unfold when. destruct c; [exact H | apply oblivious_ret]. Qed.

Lemma oblivious_degToRad (degrees : number) : oblivious (degToRad degrees).
Proof. unfold degToRad. oblivious. Qed.

Lemma oblivious_toISOString (d : Date) : oblivious (toISOString d).
Proof. unfold toISOString. oblivious. Qed.

Lemma oblivious_calculatePlanetPosition
    (fuel : nat) (planet : Planet) (spaceTime : SpaceTime) :
  oblivious (calculatePlanetPosition fuel planet spaceTime).
Proof.
  unfold calculatePlanetPosition.
  repeat first
    [ apply oblivious_toISOString
    | apply oblivious_degToRad
    | apply oblivious_when
    | oblivious_step ].
Qed.

(** ** Relative positions *)

Lemma negate_difference (p q : OrbitalPosition) :
  negate (difference p q) = difference q p.
Proof. unfold negate, difference. simpl. now rewrite !neg_sub. Qed.

(** The [catch] clause leaves no exception: the function returns a position
    or does not return. *)
Lemma calculatePlanetPosition_returns_or_diverges
    (fuel : nat) (planet : Planet) (spaceTime : SpaceTime) (w : Console) :
  value (calculatePlanetPosition fuel planet spaceTime) w
  = option_map Ok (position fuel planet spaceTime).
Proof.
  unfold position.
  rewrite (oblivious_calculatePlanetPosition fuel planet spaceTime w []).
  unfold value, calculatePlanetPosition, tryCatch.
  match goal with
  | |- context [match ?body [] with _ => _ end] => destruct (body []) as [[[pos | e] w'] |]
  end; reflexivity.
Qed.

Lemma value_calculateRelativePosition
    (fuel : nat) (planetA planetB : Planet) (spaceTime : SpaceTime) (w : Console) :
  value (calculateRelativePosition fuel planetA planetB spaceTime) w =
  match position fuel planetA spaceTime, position fuel planetB spaceTime with
  | Some posA, Some posB => Some (Ok (difference posB posA))
  | _, _ => None
  end.
Proof.
  unfold calculateRelativePosition. rewrite value_bind.
  pose proof (calculatePlanetPosition_returns_or_diverges fuel planetA spaceTime w) as HA.
  unfold value in HA.
  destruct (calculatePlanetPosition fuel planetA spaceTime w) as [[rA wA] |];
    destruct (position fuel planetA spaceTime) as [posA |];
    simpl in HA; try discriminate; [| reflexivity].
  injection HA as ->. rewrite value_bind.
  pose proof (calculatePlanetPosition_returns_or_diverges fuel planetB spaceTime wA) as HB.
  unfold value in HB.
  destruct (calculatePlanetPosition fuel planetB spaceTime wA) as [[rB wB] |];
    destruct (position fuel planetB spaceTime) as [posB |];
    simpl in HB; try discriminate; [| reflexivity].
  injection HB as ->. reflexivity.
Qed.

(** C8. [calculateRelativePosition A B t] is the componentwise difference
    position(B) - position(A) of the two positions
    [calculatePlanetPosition] returns (and returns exactly when both do),
    and it is the componentwise negation of
    [calculateRelativePosition B A t]. *)
Theorem relative_position_antisymmetric :
  forall (fuel : nat) (planetA planetB : Planet) (spaceTime : SpaceTime)
         (w : Console),
    value (calculateRelativePosition fuel planetA planetB spaceTime) w
    = match position fuel planetA spaceTime, position fuel planetB spaceTime with
      | Some posA, Some posB => Some (Ok (difference posB posA))
      | _, _ => None
      end
    /\ value (calculateRelativePosition fuel planetA planetB spaceTime) w
       = option_map (mapResult negate)
           (value (calculateRelativePosition fuel planetB planetA spaceTime) w).
Proof.
  intros fuel planetA planetB spaceTime w.
  split; [apply value_calculateRelativePosition |].
  rewrite !value_calculateRelativePosition.
  destruct (position fuel planetA spaceTime) as [posA |],
           (position fuel planetB spaceTime) as [posB |]; try reflexivity.
  simpl. now rewrite negate_difference.
Qed.

(** ** Samples of the orbital path *)

Section PathSamples.

Variable planet : Planet.

Lemma nth_error_seq_lt (len start i : nat) :
  (i < len)%nat -> nth_error (seq start len) i = Some (start + i)%nat.
Proof.
  revert start i. induction len as [| len IH]; intros start i Hi; [lia |].
  destruct i as [| i]; simpl.
  - f_equal. lia.
  - rewrite IH by lia. f_equal. lia.
Qed.

Lemma nth_error_generateOrbitalPath (segments i : nat) :
  (i <= segments)%nat ->
  nth_error (generateOrbitalPath planet segments) i
  = Some (pathPoint (getOrbitalEllipse planet) (sampleAngle i segments)).
Proof.
  intros Hi. unfold generateOrbitalPath.
  apply map_nth_error with (f := fun i : nat =>
    pathPoint (getOrbitalEllipse planet) (sampleAngle i segments)).
  now rewrite nth_error_seq_lt by lia.
Qed.

Lemma sampleAngle_first (n : nat) : sampleAngle 0 (S n) = Fin 0.
Proof.
  unfold sampleAngle. rewrite div_Fin by (apply not_0_INR; discriminate).
  js_eval. f_equal. simpl INR at 1. unfold Rdiv. ring.
Qed.

Lemma sampleAngle_last (n : nat) : sampleAngle (S n) (S n) = Fin (2 * PI).
Proof.
  assert (Hn : INR (S n) <> 0) by (apply not_0_INR; discriminate).
  unfold sampleAngle. rewrite div_Fin by exact Hn.
  js_eval. f_equal. field. exact Hn.
Qed.

Lemma pathPoint_full_turn (ellipse : Ellipse) :
  pathPoint ellipse (Fin (2 * PI)) = pathPoint ellipse (Fin 0).
Proof.
  unfold pathPoint. now rewrite !sin_Fin, !cos_Fin, sin_2PI, cos_2PI, sin_0, cos_0.
Qed.

Lemma generateOrbitalPath_first (n : nat) :
  hd_error (generateOrbitalPath planet (S n))
  = Some (pathPoint (getOrbitalEllipse planet) (Fin 0)).
Proof.
  rewrite <- sampleAngle_first with (n := n).
  rewrite <- (nth_error_generateOrbitalPath (S n) 0) by lia.
  now destruct (generateOrbitalPath planet (S n)).
Qed.

Lemma length_generateOrbitalPath (segments : nat) :
  List.length (generateOrbitalPath planet segments) = S segments.
Proof. unfold generateOrbitalPath. now rewrite length_map, length_seq. Qed.

End PathSamples.

(** ** The perihelion point *)

(** C10, as the code has it.  When the inclination is a finite number of
    magnitude at most 5e307 the point returned by
    [calculatePerihelionPosition] has z-coordinate exactly 0, whatever the
    value of the inclination in that range: the inclination rotation is
    applied to the y-coordinate 0 of the unrotated point.  The bound keeps
    the product [inclination * Math.PI] of line 249 below the largest
    binary64 number (about 1.797e308); above it the product is an infinity
    in the source, its sine [NaN], and z is [NaN] as for a [NaN]
    inclination. *)
Theorem perihelion_z_zero :
  forall (planet : Planet) (i_ : R),
    inclination planet = Fin i_ ->
    Rabs i_ <= 5 * 10 ^ 307 ->
    THREE.z (calculatePerihelionPosition planet) = Fin 0.
Proof.
  intros planet i_ Hi _.
  unfold calculatePerihelionPosition, getOrbitalEllipse. simpl.
  rewrite Hi. js_eval. f_equal. ring.
Qed.

Lemma perihelion_z_zero_witness :
  THREE.z (calculatePerihelionPosition (tilted (Fin 7))) = Fin 0.
Proof.
  apply (perihelion_z_zero (tilted (Fin 7)) 7); [reflexivity |].
  rewrite Rabs_pos_eq by lra.
  pose proof (pow_R1_Rle 10 307 ltac:(lra)). lra.
Defined.

(** C10 as stated fails: with the inclination [NaN] the z-coordinate is
    [0 * NaN], which is [NaN]. *)
Lemma perihelion_z_not_zero_for_NaN_inclination :
  THREE.z (calculatePerihelionPosition (tilted NaN)) <> Fin 0.
Proof.
  unfold calculatePerihelionPosition, getOrbitalEllipse. simpl.
  unfold mul, div, Math.PI, Math.sin. discriminate.
Qed.

Section Perihelion.

Variable planet : Planet.
Variables a_ e_ w_ : R.
Hypothesis Ha : semiMajorAxis planet = Fin a_.
Hypothesis He : eccentricity planet = Fin e_.
Hypothesis Hw : argumentOfPeriapsis planet = Fin w_.

Let ellipse := getOrbitalEllipse planet.

Lemma perihelion_start_point :
  mul (semiMajorAxis planet) (sub (Fin 1) (eccentricity planet))
  = Fin (a_ * (1 - e_)).
Proof. rewrite Ha, He. now js_eval. Qed.

Lemma ellipse_argument : ellipseArgumentOfPeriapsis ellipse = Fin (w_ * PI / 180).
Proof.
  unfold ellipse, getOrbitalEllipse. simpl. rewrite Hw. apply toRadians_Fin.
Qed.

Lemma ellipse_a : a ellipse = Fin a_.
Proof. exact Ha. Qed.

Lemma ellipse_b : e_ * e_ <= 1 -> b ellipse = Fin (a_ * sqrt (1 - e_ * e_)).
Proof.
  intros Hle. unfold ellipse, getOrbitalEllipse. simpl. rewrite Ha, He.
  now js_eval.
Qed.

End Perihelion.

(** C1 fails on the code.  The comment of line 304 announces the rotations
    of [generateOrbitalPath] in their order, but lines 309-316 compute only
    the x-coordinate of the first rotation and go on with [point.y] = 0 in
    place of the rotated y-coordinate.  With a = 2, e = 1/2 and the
    argument of periapsis at 90 degrees (no inclination, node at 0) the
    point (a(1-e), 0, 0) = (1, 0, 0) put through the rotations of
    [generateOrbitalPath] has y = 1 and the first sample of the 64-segment
    path has y = 2, while the point the code returns has y = 0. *)
Theorem perihelion_drops_rotated_y :
  let planet := oriented 2 (1 / 2) 90 in
  let start := mul (semiMajorAxis planet) (sub (Fin 1) (eccentricity planet)) in
  THREE.y (calculatePerihelionPosition planet) = Fin 0
  /\ THREE.y (applyRotations (getOrbitalEllipse planet) start (Fin 0)) = Fin 1
  /\ option_map THREE.y (hd_error (generateOrbitalPath planet 64)) = Some (Fin 2)
  /\ calculatePerihelionPosition planet
     <> applyRotations (getOrbitalEllipse planet) start (Fin 0)
  /\ hd_error (generateOrbitalPath planet 64)
     <> Some (calculatePerihelionPosition planet).
Proof.
  cbv zeta.
  assert (Hperi : THREE.y (calculatePerihelionPosition (oriented 2 (1 / 2) 90)) = Fin 0).
  { unfold calculatePerihelionPosition, getOrbitalEllipse. simpl. js_eval.
    rewrite deg_0, deg_90, cos_PI2, sin_0, cos_0. f_equal. ring. }
  assert (Hrot : THREE.y (applyRotations (getOrbitalEllipse (oriented 2 (1 / 2) 90))
                            (mul (Fin 2) (sub (Fin 1) (Fin (1 / 2)))) (Fin 0))
                 = Fin 1).
  { unfold applyRotations, getOrbitalEllipse. simpl. js_eval.
    rewrite deg_0, deg_90, cos_PI2, sin_PI2, sin_0, cos_0. f_equal. lra. }
  assert (Hpath : option_map THREE.y
                    (hd_error (generateOrbitalPath (oriented 2 (1 / 2) 90) 64))
                  = Some (Fin 2)).
  { rewrite (generateOrbitalPath_first (oriented 2 (1 / 2) 90) 63).
    unfold pathPoint, applyRotations, getOrbitalEllipse. simpl. js_eval.
    rewrite deg_0, deg_90, cos_PI2, sin_PI2, sin_0, cos_0.
    do 2 f_equal. lra. }
  repeat split; try assumption.
  - intros H. apply (f_equal THREE.y) in H.
    simpl semiMajorAxis in H. simpl eccentricity in H.
    rewrite Hperi, Hrot in H. injection H as H. lra.
  - intros H. apply (f_equal (option_map THREE.y)) in H.
    rewrite Hpath in H. cbn [option_map] in H. rewrite Hperi in H.
    injection H as H. lra.
Qed.

(** ** Kepler's equation: one Newton step over the reals *)

Section NewtonStep.

Variables M e : R.
Hypothesis He : 0 <= e < 1.

Lemma denominator_pos (E : R) : 0 < 1 - e * cos E.
Proof. pose proof (COS_bound E). nra. Qed.

Lemma keplerDelta_Fin (E : R) :
  keplerDelta (Fin M) (Fin e) (Fin E) = Fin (newtonDelta M e E).
Proof.
  unfold keplerDelta, newtonDelta. js_eval.
  apply div_Fin. pose proof (denominator_pos E). lra.
Qed.

Lemma keplerLoop_step (fuel : nat) (tol E : R) :
  keplerLoop (S fuel) (Fin M) (Fin e) (Fin tol) (Fin E)
  = if Rltb tol (Rabs (newtonDelta M e E))
    then keplerLoop fuel (Fin M) (Fin e) (Fin tol) (Fin (E + newtonDelta M e E))
    else Some (Fin (E + newtonDelta M e E)).
Proof. simpl. rewrite keplerDelta_Fin. now js_eval. Qed.

(** [delta] is the residual, rescaled. *)
Lemma newtonDelta_residual (E : R) :
  newtonDelta M e E * (1 - e * cos E) = - keplerResidual M e E.
Proof.
  unfold newtonDelta, keplerResidual. pose proof (denominator_pos E).
  field. lra.
Qed.

(** The residual after the step, from the second-order remainder of sine. *)
Lemma residual_after_step (E : R) :
  keplerResidual M e (E + newtonDelta M e E)
  = e * (sin E + newtonDelta M e E * cos E - sin (E + newtonDelta M e E)).
Proof.
  pose proof (newtonDelta_residual E) as H. unfold keplerResidual in *.
  lra.
Qed.

(** A value the loop returns is finite, and is reached by a last step no
    larger than the tolerance. *)
Lemma keplerLoop_exit (tol : R) (fuel : nat) :
  forall (E : R) (res : number),
    keplerLoop fuel (Fin M) (Fin e) (Fin tol) (Fin E) = Some res ->
    exists E0 : R,
      res = Fin (E0 + newtonDelta M e E0) /\ Rabs (newtonDelta M e E0) <= tol.
Proof.
  induction fuel as [| fuel IH]; intros E res Hrun; [discriminate |].
  rewrite keplerLoop_step in Hrun.
  destruct (Rltb tol (Rabs (newtonDelta M e E))) eqn:Hcmp.
  - eapply IH, Hrun.
  - injection Hrun as <-. exists E. split; [reflexivity |].
    unfold Rltb in Hcmp. destruct (Rlt_dec tol (Rabs (newtonDelta M e E)));
      [discriminate | lra].
Qed.

(** More fuel does not change a result. *)
Lemma keplerLoop_more_fuel (tol : R) (fuel : nat) :
  forall (E : R) (res : number),
    keplerLoop fuel (Fin M) (Fin e) (Fin tol) (Fin E) = Some res ->
    keplerLoop (S fuel) (Fin M) (Fin e) (Fin tol) (Fin E) = Some res.
Proof.
  induction fuel as [| fuel IH]; intros E res Hrun; [discriminate |].
  rewrite keplerLoop_step in Hrun. rewrite keplerLoop_step.
  destruct (Rltb tol (Rabs (newtonDelta M e E))); [| exact Hrun].
  apply IH, Hrun.
Qed.

End NewtonStep.

(** ** Bounds on sine and cosine *)

Section TrigBounds.

(** The mean value theorem as a Lipschitz bound, whatever the order of the
    end points. *)
Lemma mean_value_bound (f f' : R -> R) (u v K : R) :
  (forall c, derivable_pt_lim f c (f' c)) ->
  (forall c, Rmin u v <= c <= Rmax u v -> Rabs (f' c) <= K) ->
  Rabs (f v - f u) <= K * Rabs (v - u).
Proof.
  intros Hd HK.
  assert (Hordered : forall p q, p < q ->
            (forall c, p <= c <= q -> Rabs (f' c) <= K) ->
            Rabs (f q - f p) <= K * Rabs (q - p)).
  { intros p q Hpq Hb.
    destruct (MVT_cor2 f f' p q Hpq (fun c _ => Hd c)) as [c [Hc Hin]].
    rewrite Hc, Rabs_mult. apply Rmult_le_compat_r; [apply Rabs_pos |].
    apply Hb. lra. }
  destruct (Rtotal_order u v) as [Hlt | [Heq | Hgt]].
  - apply Hordered; [exact Hlt |]. intros c Hc. apply HK.
    rewrite Rmin_left, Rmax_right by lra. exact Hc.
  - subst v. replace (f u - f u) with 0 by ring.
    replace (u - u) with 0 by ring. rewrite Rabs_R0. lra.
  - rewrite (Rabs_minus_sym (f v)), (Rabs_minus_sym v).
    apply Hordered; [exact Hgt |]. intros c Hc. apply HK.
    rewrite Rmin_right, Rmax_left by lra. exact Hc.
Qed.

Lemma Rabs_mult_self (t : R) : Rabs t * Rabs t = t * t.
Proof. rewrite <- Rabs_mult. apply Rabs_pos_eq. nra. Qed.

Lemma Rabs_sin_le (t : R) : Rabs (sin t) <= Rabs t.
Proof.
  pose proof (mean_value_bound sin cos 0 t 1 derivable_pt_lim_sin) as H.
  rewrite sin_0, !Rminus_0_r, Rmult_1_l in H. apply H.
  intros c _. pose proof (COS_bound c). apply Rabs_le. lra.
Qed.

Lemma cos_lipschitz (u v : R) : Rabs (cos v - cos u) <= Rabs (v - u).
Proof.
  pose proof (mean_value_bound cos (fun c => - sin c) u v 1 derivable_pt_lim_cos) as H.
  rewrite Rmult_1_l in H. apply H.
  intros c _. pose proof (SIN_bound c). apply Rabs_le. lra.
Qed.

Lemma one_minus_cos_bounds (d : R) : 0 <= 1 - cos d <= d * d / 2.
Proof.
  replace d with (2 * (d / 2)) at 1 2 by field. rewrite cos_2a_sin.
  pose proof (Rabs_sin_le (d / 2)) as H.
  assert (Hsq : sin (d / 2) * sin (d / 2) <= (d / 2) * (d / 2)).
  { rewrite <- (Rabs_mult_self (sin (d / 2))) at 1.
    rewrite <- (Rabs_mult_self (d / 2)).
    pose proof (Rabs_pos (sin (d / 2))). nra. }
  nra.
Qed.

Lemma x_minus_sin_bound (d : R) : Rabs (d - sin d) <= d * d.
Proof.
  assert (Hd : forall c, derivable_pt_lim (id - sin)%F c (1 - cos c)).
  { intros c. apply derivable_pt_lim_minus;
      [apply derivable_pt_lim_id | apply derivable_pt_lim_sin]. }
  pose proof (mean_value_bound (id - sin)%F (fun c => 1 - cos c) 0 d (Rabs d) Hd) as H.
  unfold minus_fct, id in H. rewrite sin_0, !Rminus_0_r in H.
  rewrite Rabs_mult_self in H. apply H. clear H.
  intros c Hc.
  pose proof (cos_lipschitz 0 c) as Hl. rewrite cos_0, Rminus_0_r in Hl.
  rewrite Rabs_minus_sym. eapply Rle_trans; [exact Hl |].
  unfold Rmin, Rmax in Hc. unfold Rabs.
  destruct (Rle_dec 0 d), (Rcase_abs c), (Rcase_abs d); lra.
Qed.

(** The remainder of the first-order expansion of sine is of second
    order. *)
Lemma sin_second_order (t d : R) :
  Rabs (sin (t + d) - sin t - d * cos t) <= 3 / 2 * (d * d).
Proof.
  rewrite sin_plus.
  replace (sin t * cos d + cos t * sin d - sin t - d * cos t)
    with (- sin t * (1 - cos d) + - cos t * (d - sin d)) by ring.
  eapply Rle_trans; [apply Rabs_triang |]. rewrite !Rabs_mult, !Rabs_Ropp.
  pose proof (one_minus_cos_bounds d) as [H0 H1].
  pose proof (x_minus_sin_bound d) as H2.
  pose proof (SIN_bound t). pose proof (COS_bound t).
  assert (Rabs (sin t) <= 1) by (apply Rabs_le; lra).
  assert (Rabs (cos t) <= 1) by (apply Rabs_le; lra).
  rewrite (Rabs_pos_eq (1 - cos d)) by exact H0.
  pose proof (Rabs_pos (sin t)). pose proof (Rabs_pos (cos t)).
  pose proof (Rabs_pos (d - sin d)). nra.
Qed.

(** Sine lies below its tangents on [0, PI]. *)
Lemma sin_below_tangent (u v : R) :
  0 <= u <= PI -> 0 <= v <= PI -> sin v <= sin u + (v - u) * cos u.
Proof.
  intros Hu Hv.
  destruct (Rtotal_order u v) as [Hlt | [Heq | Hgt]].
  - destruct (MVT_cor2 sin cos u v Hlt (fun c _ => derivable_pt_lim_sin c))
      as [c [Hc Hin]].
    assert (cos c <= cos u) by (apply cos_decr_1; lra).
    nra.
  - subst v. lra.
  - destruct (MVT_cor2 sin cos v u Hgt (fun c _ => derivable_pt_lim_sin c))
      as [c [Hc Hin]].
    assert (cos u <= cos c) by (apply cos_decr_1; lra).
    nra.
Qed.

End TrigBounds.

(** ** Convergence of the Newton iteration *)

(** The bound that keeps the first step from [E = M] inside [0, PI] for
    eccentricities up to 9/10, written at [t = PI - M]. *)
Lemma first_step_bound (t e : R) :
  0 <= t <= PI -> 0 <= e <= 9 / 10 -> e * (sin t - t * cos t) <= t.
Proof.
  intros Ht He.
  assert (Hg : sin t - t * cos t <= 10 / 9 * t).
  { pose proof (Rabs_sin_le t) as Hsin. rewrite (Rabs_pos_eq t) in Hsin by lra.
    assert (Hsint : sin t <= t).
    { eapply Rle_trans; [apply Rle_abs | exact Hsin]. }
    destruct (Rle_dec t (PI / 2)) as [Hle | Hgt].
    - assert (0 <= cos t) by (apply cos_ge_0; lra). nra.
    - assert (Hcos : - cos t = sin (t - PI / 2)).
      { rewrite sin_minus, cos_PI2, sin_PI2. ring. }
      pose proof (Rabs_sin_le (t - PI / 2)) as Hs.
      rewrite (Rabs_pos_eq (t - PI / 2)) in Hs by lra.
      assert (Hc : - cos t <= t - PI / 2).
      { rewrite Hcos. eapply Rle_trans; [apply Rle_abs | exact Hs]. }
      pose proof (SIN_bound t) as [_ Hs1].
      pose proof PI2_3_2 as Hpi.
      destruct (Rle_dec t (207 / 100)) as [Hsmall | Hlarge].
      + assert (t * (- cos t) <= t * (t - 3 / 2)) by nra. nra.
      + pose proof (sin2_cos2 t) as Hsc. unfold Rsqr in Hsc.
        assert (Hsq : (sin t - t * cos t) * (sin t - t * cos t) <= 1 + t * t).
        { pose proof (Rle_0_sqr (cos t + t * sin t)) as Hnn. unfold Rsqr in Hnn.
          assert (Hid : (sin t - t * cos t) * (sin t - t * cos t)
                        + (cos t + t * sin t) * (cos t + t * sin t)
                        = (1 + t * t) * (sin t * sin t + cos t * cos t)) by ring.
          rewrite Hsc in Hid. lra. }
        destruct (Rle_dec (sin t - t * cos t) 0) as [Hneg | Hpos]; [nra |].
        assert (Hbig : 1 + t * t <= (10 / 9 * t) * (10 / 9 * t)) by nra.
        apply Rnot_lt_le. intros Hcontra. nra. }
  destruct (Rle_dec (sin t - t * cos t) 0); nra.
Qed.

Section Convergence.

Variables M e tol : R.
Hypothesis He : 0 <= e < 1.
Hypothesis Htol : 0 < tol.
Hypothesis HM : 0 <= M <= PI.

Lemma residual_nonneg_after_step (E : R) :
  0 <= E <= PI -> 0 <= E + newtonDelta M e E <= PI ->
  0 <= keplerResidual M e (E + newtonDelta M e E).
Proof.
  intros HE HE'. rewrite (residual_after_step M e He).
  pose proof (sin_below_tangent E (E + newtonDelta M e E) HE HE'). nra.
Qed.

Lemma basin_step (E : R) :
  inBasin M e E -> newtonDelta M e E <= 0 /\ inBasin M e (E + newtonDelta M e E).
Proof.
  intros [HE Hres].
  pose proof (denominator_pos e He E) as Hden.
  pose proof (newtonDelta_residual M e He E) as Hd.
  set (d := newtonDelta M e E) in *.
  assert (Hneg : d <= 0) by nra.
  assert (Htan : (E - M) * cos E <= sin E).
  { pose proof (sin_below_tangent E 0 ltac:(lra) ltac:(pose proof PI_RGT_0; lra)) as Ht.
    rewrite sin_0 in Ht.
    assert (0 <= sin E) by (apply sin_ge_0; lra).
    destruct (Rle_dec 0 (cos E)); nra. }
  assert (Hlow : M <= E + d).
  { assert (Hprod : (d + E - M) * (1 - e * cos E)
                    = e * (sin E - (E - M) * cos E)).
    { unfold keplerResidual in Hd. nra. }
    assert (0 <= (d + E - M) * (1 - e * cos E)) by (rewrite Hprod; nra).
    nra. }
  split; [exact Hneg |]. split; [lra |].
  apply residual_nonneg_after_step; fold d; lra.
Qed.

Lemma basin_terminates (n : nat) :
  forall E : R,
    inBasin M e E -> E - M <= INR n * tol ->
    exists (fuel : nat) (res : number),
      keplerLoop fuel (Fin M) (Fin e) (Fin tol) (Fin E) = Some res.
Proof.
  induction n as [| n IH]; intros E Hin Hdist;
    destruct (basin_step E Hin) as [Hneg [Hrange Hres]];
    destruct (Rltb tol (Rabs (newtonDelta M e E))) eqn:Hcmp;
    try (exists 1%nat; eexists; rewrite (keplerLoop_step M e He), Hcmp;
         reflexivity);
    apply Rltb_true_iff in Hcmp; rewrite Rabs_left1 in Hcmp by exact Hneg.
  - simpl in Hdist. lra.
  - rewrite S_INR in Hdist.
    destruct (IH (E + newtonDelta M e E)) as [fuel [res Hrun]];
      [split; assumption | lra |].
    exists (S fuel), res. rewrite (keplerLoop_step M e He).
    rewrite Rltb_lt by (rewrite Rabs_left1 by exact Hneg; lra).
    exact Hrun.
Qed.

Lemma enough_steps : exists n : nat, PI <= INR n * tol.
Proof.
  destruct (archimed_cor1 (tol / 4)) as [N [HN Hpos]]; [lra |].
  exists N. pose proof PI_4.
  assert (0 < INR N) by (apply lt_0_INR; exact Hpos).
  assert (Hinv : / INR N * INR N = 1) by (field; lra).
  nra.
Qed.

(** From [E = M] the first step lands in the basin, when the eccentricity is
    at most 9/10. *)
Lemma first_step_in_basin :
  e <= 9 / 10 -> inBasin M e (M + newtonDelta M e M).
Proof.
  intros He9.
  pose proof (denominator_pos e He M) as Hden.
  pose proof (newtonDelta_residual M e He M) as Hd.
  unfold keplerResidual in Hd.
  assert (Hsin : 0 <= sin M) by (apply sin_ge_0; lra).
  set (d := newtonDelta M e M) in *.
  assert (Hpos : 0 <= d) by nra.
  assert (Hup : M + d <= PI).
  { pose proof (first_step_bound (PI - M) e ltac:(lra) ltac:(lra)) as Hk.
    rewrite sin_PI_x in Hk.
    replace (cos (PI - M)) with (- cos M) in Hk
      by (rewrite cos_minus, cos_PI, sin_PI; ring).
    assert (0 <= (PI - M - d) * (1 - e * cos M)) by nra.
    nra. }
  split; [lra |].
  apply residual_nonneg_after_step; fold d; lra.
Qed.

Lemma solveKepler_terminates_first_half :
  e <= 9 / 10 ->
  exists (fuel : nat) (res : number),
    solveKepler fuel (Fin M) (Fin e) (Fin tol) = Some res.
Proof.
  intros He9. unfold solveKepler.
  destruct (Rltb tol (Rabs (newtonDelta M e M))) eqn:Hcmp.
  - pose proof (first_step_in_basin He9) as Hin.
    destruct enough_steps as [n Hn].
    destruct (basin_terminates n _ Hin) as [fuel [res Hrun]].
    { destruct Hin as [[_ Hup] _]. lra. }
    exists (S fuel), res. rewrite (keplerLoop_step M e He), Hcmp. exact Hrun.
  - exists 1%nat. eexists. rewrite (keplerLoop_step M e He), Hcmp. reflexivity.
Qed.

End Convergence.

(** ** Symmetries of the iteration *)

Section Symmetries.

Variables e tol : R.
Hypothesis He : 0 <= e < 1.

(** Reflection about [PI]. *)
Lemma newtonDelta_reflect (M E : R) :
  newtonDelta (2 * PI - M) e (2 * PI - E) = - newtonDelta M e E.
Proof.
  unfold newtonDelta.
  rewrite sin_minus, cos_minus, sin_2PI, cos_2PI.
  pose proof (denominator_pos e He E).
  replace (1 - e * (1 * cos E + 0 * sin E)) with (1 - e * cos E) by ring.
  field. lra.
Qed.

Lemma keplerLoop_reflect (M : R) (fuel : nat) :
  forall E : R,
    keplerLoop fuel (Fin (2 * PI - M)) (Fin e) (Fin tol) (Fin (2 * PI - E))
    = option_map (sub (Fin (2 * PI)))
        (keplerLoop fuel (Fin M) (Fin e) (Fin tol) (Fin E)).
Proof.
  induction fuel as [| fuel IH]; intros E; [reflexivity |].
  rewrite !(keplerLoop_step _ e He), newtonDelta_reflect, Rabs_Ropp.
  replace (2 * PI - E + - newtonDelta M e E)
    with (2 * PI - (E + newtonDelta M e E)) by ring.
  destruct (Rltb tol (Rabs (newtonDelta M e E))); [apply IH | reflexivity].
Qed.

Lemma newtonDelta_shift (p M E : R) :
  isPeriod p -> newtonDelta (M + p) e (E + p) = newtonDelta M e E.
Proof.
  intros Hp. unfold newtonDelta. destruct (Hp E) as [-> ->].
  f_equal. ring.
Qed.

Lemma keplerLoop_shift (p M : R) (Hp : isPeriod p) (fuel : nat) :
  forall E : R,
    keplerLoop fuel (Fin (M + p)) (Fin e) (Fin tol) (Fin (E + p))
    = option_map (fun res => add res (Fin p))
        (keplerLoop fuel (Fin M) (Fin e) (Fin tol) (Fin E)).
Proof.
  induction fuel as [| fuel IH]; intros E; [reflexivity |].
  rewrite !(keplerLoop_step _ e He), (newtonDelta_shift p M E Hp).
  replace (E + p + newtonDelta M e E) with (E + newtonDelta M e E + p) by ring.
  destruct (Rltb tol (Rabs (newtonDelta M e E))); [apply IH | reflexivity].
Qed.

End Symmetries.

Lemma isPeriod_nat (k : nat) : isPeriod (2 * INR k * PI).
Proof. intros t. split; [apply sin_period | apply cos_period]. Qed.

Lemma isPeriod_opp (p : R) : isPeriod p -> isPeriod (- p).
Proof.
  intros Hp t. destruct (Hp (t + - p)) as [Hs Hc].
  replace (t + - p + p) with t in * by ring. now split.
Qed.

Lemma isPeriod_Z (k : Z) : isPeriod (2 * IZR k * PI).
Proof.
  destruct (Z_le_gt_dec 0 k) as [Hk | Hk].
  - rewrite <- (Z2Nat.id k Hk), <- INR_IZR_INZ. apply isPeriod_nat.
  - replace (2 * IZR k * PI) with (- (2 * INR (Z.to_nat (- k)) * PI)).
    + apply isPeriod_opp, isPeriod_nat.
    + rewrite INR_IZR_INZ, Z2Nat.id by lia. rewrite opp_IZR. ring.
Qed.

(** Every real lies in one period above a multiple of [2 PI]. *)
Lemma reduce_to_first_period (M : R) :
  exists k : Z, 0 <= M - 2 * IZR k * PI < 2 * PI.
Proof.
  pose proof PI_RGT_0 as Hpi.
  exists (Int_part (M / (2 * PI))).
  destruct (base_Int_part (M / (2 * PI))) as [Hlo Hhi].
  set (k := IZR (Int_part (M / (2 * PI)))) in *.
  assert (HM : M = M / (2 * PI) * (2 * PI)) by (field; lra).
  split; nra.
Qed.

(** ** Termination for eccentricities up to 9/10 *)

Section Termination.

Variables e tol : R.
Hypothesis He : 0 <= e <= 9 / 10.
Hypothesis Htol : 0 < tol.

Let He1 : 0 <= e < 1.
Proof. lra. Qed.

Lemma solveKepler_terminates_first_period (M : R) :
  0 <= M < 2 * PI ->
  exists (fuel : nat) (res : number),
    solveKepler fuel (Fin M) (Fin e) (Fin tol) = Some res.
Proof.
  intros HM. destruct (Rle_dec M PI) as [Hlow | Hhigh].
  - apply solveKepler_terminates_first_half; lra.
  - destruct (solveKepler_terminates_first_half (2 * PI - M) e tol)
      as [fuel [res Hrun]]; try lra.
    exists fuel, (sub (Fin (2 * PI)) res).
    unfold solveKepler in *.
    pose proof (keplerLoop_reflect e tol He1 (2 * PI - M) fuel (2 * PI - M)) as Hr.
    replace (2 * PI - (2 * PI - M)) with M in Hr by ring.
    rewrite Hr, Hrun. reflexivity.
Qed.

Lemma solveKepler_terminates (M : R) :
  exists (fuel : nat) (res : number),
    solveKepler fuel (Fin M) (Fin e) (Fin tol) = Some res.
Proof.
  destruct (reduce_to_first_period M) as [k Hk].
  destruct (solveKepler_terminates_first_period _ Hk) as [fuel [res Hrun]].
  exists fuel, (add res (Fin (2 * IZR k * PI))).
  unfold solveKepler in *.
  pose proof (keplerLoop_shift e tol He1 _ (M - 2 * IZR k * PI) (isPeriod_Z k)
                fuel (M - 2 * IZR k * PI)) as Hs.
  replace (M - 2 * IZR k * PI + 2 * IZR k * PI) with M in Hs by ring.
  rewrite Hs, Hrun. reflexivity.
Qed.

End Termination.

(** The residual left by a last step within the tolerance. *)
Lemma residual_within_tolerance (M e tol E0 : R) :
  0 <= e < 1 -> 0 < tol <= 2 / 3 ->
  Rabs (newtonDelta M e E0) <= tol ->
  Rabs (keplerResidual M e (E0 + newtonDelta M e E0)) <= tol.
Proof.
  intros He Htol Hd. rewrite (residual_after_step M e He).
  set (d := newtonDelta M e E0) in *.
  rewrite Rabs_mult, (Rabs_pos_eq e) by lra.
  replace (sin E0 + d * cos E0 - sin (E0 + d))
    with (- (sin (E0 + d) - sin E0 - d * cos E0)) by ring.
  rewrite Rabs_Ropp.
  pose proof (sin_second_order E0 d) as H2.
  pose proof (Rabs_pos (sin (E0 + d) - sin E0 - d * cos E0)) as H0.
  pose proof (Rabs_mult_self d) as Hsq. pose proof (Rabs_pos d) as Hd0.
  assert (Hdd : d * d <= tol * tol) by nra.
  assert (Hbound : Rabs (sin (E0 + d) - sin E0 - d * cos E0) <= tol) by nra.
  nra.
Qed.

(** C3. For every mean anomaly M in [0, 2 PI) and eccentricity e in
    [0, 0.9], [solveKepler] with the default tolerance 1e-8 returns (given
    enough fuel, and then with any more) a finite eccentric anomaly E, and
    E put back into Kepler's equation reproduces M within the tolerance:
    |(E - e sin E) - M| <= 1e-8. *)
Theorem kepler_solution_within_tolerance :
  forall M e : R,
    0 <= M < 2 * PI -> 0 <= e <= 9 / 10 ->
    exists (fuel : nat) (E : R),
      (forall fuel' : nat, (fuel <= fuel')%nat ->
         solveKepler fuel' (Fin M) (Fin e) defaultTolerance = Some (Fin E))
      /\ Rabs ((E - e * sin E) - M) <= 1 / 100000000.
Proof.
  intros M e HM He.
  assert (He1 : 0 <= e < 1) by lra.
  destruct (solveKepler_terminates_first_period e (1 / 100000000) He ltac:(lra) M HM)
    as [fuel [res Hrun]].
  destruct (keplerLoop_exit M e He1 _ fuel M res Hrun) as [E0 [-> Hd]].
  exists fuel, (E0 + newtonDelta M e E0). split.
  - intros fuel' Hle. induction Hle as [| fuel' Hle IH]; [exact Hrun |].
    apply (keplerLoop_more_fuel M e He1), IH.
  - apply (residual_within_tolerance M e); [exact He1 | lra | exact Hd].
Qed.

Lemma kepler_solution_within_tolerance_witness :
  exists (fuel : nat) (E : R),
    (forall fuel' : nat, (fuel <= fuel')%nat ->
       solveKepler fuel' (Fin 1) (Fin (1 / 2)) defaultTolerance = Some (Fin E))
    /\ Rabs ((E - 1 / 2 * sin E) - 1) <= 1 / 100000000.
Proof.
  apply (kepler_solution_within_tolerance 1 (1 / 2)).
  - pose proof PI2_3_2. lra.
  - lra.
Defined.

(** Over the reals, for every mean anomaly M, every eccentricity e with
    0 <= e <= 0.9 and every positive tolerance, the loop of [solveKepler]
    ends: some amount of fuel, and then any larger one, yields a result.
    This is a fact of exact arithmetic: in binary64 the step cannot fall
    below the rounding of E, so that a tolerance far below 1e-16 is never
    met. *)
Lemma kepler_loop_terminates :
  forall M e tol : R,
    0 <= e <= 9 / 10 -> 0 < tol ->
    exists (fuel : nat) (res : number),
      forall fuel' : nat, (fuel <= fuel')%nat ->
        solveKepler fuel' (Fin M) (Fin e) (Fin tol) = Some res.
Proof.
  intros M e tol He Htol.
  destruct (solveKepler_terminates e tol He Htol M) as [fuel [res Hrun]].
  exists fuel, res. intros fuel' Hle.
  induction Hle as [| fuel' Hle IH]; [exact Hrun |].
  apply (keplerLoop_more_fuel M e); [lra | exact IH].
Qed.

(** ** A cycle of the iteration for an eccentricity close to 1 *)

Section TwoCycle.

Lemma PI_upper_bound : PI <= 68 / 21.
Proof.
  destruct (PI_2_3_7_ineq 0) as [_ H].
  unfold tg_alt, PI_2_3_7_tg, Ratan_seq in H. simpl in H. lra.
Qed.

Lemma atan_bounds (t : R) : 0 < t -> t / (1 + t * t) < atan t < t.
Proof.
  intros Ht.
  destruct (MVT_cor2 atan (fun c => / (1 + c ^ 2)) 0 t Ht
              (fun c _ => derivable_pt_lim_atan c)) as [c [Hc Hin]].
  rewrite atan_0, !Rminus_0_r in Hc. rewrite Hc.
  assert (Hc2 : 0 < c ^ 2 < t * t) by nra.
  assert (Hlt1 : / (1 + c ^ 2) < 1).
  { rewrite <- Rinv_1 at 2. apply Rinv_lt_contravar; lra. }
  assert (Hgt : / (1 + t * t) < / (1 + c ^ 2)).
  { apply Rinv_lt_contravar; nra. }
  unfold Rdiv. split; nra.
Qed.

Lemma atan_cycleStep_bounds : 5 / 4 < atan cycleStep < 17 / 12.
Proof.
  unfold cycleStep.
  pose proof (atan_inv (17 / 4) ltac:(lra)) as Hinv.
  pose proof (atan_bounds (/ (17 / 4)) ltac:(lra)) as [Hlo Hhi].
  replace (/ (17 / 4) / (1 + / (17 / 4) * / (17 / 4))) with (68 / 305) in Hlo
    by field.
  replace (/ (17 / 4)) with (4 / 17) in * by field.
  pose proof PI_upper_bound. pose proof PI2_3_2. lra.
Qed.

Lemma cycleAnomaly_range : 0 < cycleAnomaly < 1 / 2.
Proof.
  unfold cycleAnomaly. pose proof atan_cycleStep_bounds.
  pose proof PI_upper_bound. pose proof PI2_3_2. unfold cycleStep in *. lra.
Qed.

Lemma atan_cycleStep_trig :
  0 < cos (atan cycleStep)
  /\ sin (atan cycleStep) = cycleStep * cos (atan cycleStep).
Proof.
  pose proof (atan_bound cycleStep) as Hb.
  assert (Hcos : 0 < cos (atan cycleStep)) by (apply cos_gt_0; lra).
  split; [exact Hcos |].
  pose proof (tan_atan cycleStep) as Ht. unfold tan in Ht.
  rewrite <- Ht at 2. field. lra.
Qed.

Lemma cycle_denominator :
  cycleStep < sin cycleAnomaly + cycleStep * cos cycleAnomaly.
Proof.
  destruct atan_cycleStep_trig as [Hcos Hsin].
  pose proof atan_cycleStep_bounds as Ha.
  pose proof PI_upper_bound as Hpu. pose proof PI2_3_2 as Hpl.
  set (a := atan cycleStep) in *.
  assert (Hsum : cos a * (sin cycleAnomaly + cycleStep * cos cycleAnomaly)
                 = sin (cycleStep - 2 * a)).
  { replace (cos a * (sin cycleAnomaly + cycleStep * cos cycleAnomaly))
      with (sin cycleAnomaly * cos a + cos cycleAnomaly * (cycleStep * cos a))
      by ring.
    rewrite <- Hsin, <- sin_plus. unfold cycleAnomaly. fold a.
    replace (PI + a - cycleStep + a) with (PI - (cycleStep - 2 * a)) by ring.
    apply sin_PI_x. }
  assert (Hgt : sin a < sin (cycleStep - 2 * a)).
  { unfold cycleStep in *.
    destruct (Rle_dec (17 / 4 - 2 * a) (PI / 2)) as [Hle | Hgt].
    - apply sin_increasing_1; lra.
    - rewrite <- (sin_PI_x (17 / 4 - 2 * a)). apply sin_increasing_1; lra. }
  rewrite <- Hsum, Hsin in Hgt. nra.
Qed.

Lemma cycleEccentricity_range : 0 < cycleEccentricity < 1.
Proof.
  pose proof cycle_denominator as Hd. unfold cycleEccentricity.
  assert (HT : 0 < cycleStep) by (unfold cycleStep; lra).
  split.
  - apply Rdiv_lt_0_compat; lra.
  - apply Rmult_lt_reg_r with (sin cycleAnomaly + cycleStep * cos cycleAnomaly);
      [lra |].
    unfold Rdiv. rewrite Rmult_assoc, Rinv_l by lra. lra.
Qed.

Lemma cycleEccentricity_spec :
  cycleEccentricity * (sin cycleAnomaly + cycleStep * cos cycleAnomaly)
  = cycleStep.
Proof.
  pose proof cycle_denominator. unfold cycleEccentricity.
  assert (0 < cycleStep) by (unfold cycleStep; lra).
  field. lra.
Qed.

Lemma cycle_forward :
  newtonDelta cycleAnomaly cycleEccentricity cycleAnomaly = cycleStep.
Proof.
  pose proof cycleEccentricity_range as He.
  assert (He1 : 0 <= cycleEccentricity < 1) by lra.
  pose proof (newtonDelta_residual cycleAnomaly cycleEccentricity He1 cycleAnomaly) as Hd.
  pose proof (denominator_pos cycleEccentricity He1 cycleAnomaly) as Hden.
  pose proof cycleEccentricity_spec as Hs.
  unfold keplerResidual in Hd.
  apply Rmult_eq_reg_r with (1 - cycleEccentricity * cos cycleAnomaly); [| lra].
  rewrite Hd. nra.
Qed.

Lemma cycle_backward :
  newtonDelta cycleAnomaly cycleEccentricity (cycleAnomaly + cycleStep)
  = - cycleStep.
Proof.
  pose proof cycleEccentricity_range as He.
  assert (He1 : 0 <= cycleEccentricity < 1) by lra.
  destruct atan_cycleStep_trig as [Hcos Hsin].
  assert (HE1 : cycleAnomaly + cycleStep = atan cycleStep + PI)
    by (unfold cycleAnomaly; ring).
  rewrite HE1.
  pose proof (newtonDelta_residual cycleAnomaly cycleEccentricity He1
                (atan cycleStep + PI)) as Hd.
  pose proof (denominator_pos cycleEccentricity He1 (atan cycleStep + PI)) as Hden.
  unfold keplerResidual in Hd. rewrite neg_sin, neg_cos in Hd.
  rewrite neg_cos in Hden.
  apply Rmult_eq_reg_r with (1 - cycleEccentricity * - cos (atan cycleStep));
    [| lra].
  rewrite Hd, Hsin. unfold cycleAnomaly. ring.
Qed.

Lemma cycle_never_exits (tol : R) :
  tol < cycleStep ->
  forall fuel : nat,
    keplerLoop fuel (Fin cycleAnomaly) (Fin cycleEccentricity) (Fin tol)
      (Fin cycleAnomaly) = None
    /\ keplerLoop fuel (Fin cycleAnomaly) (Fin cycleEccentricity) (Fin tol)
         (Fin (cycleAnomaly + cycleStep)) = None.
Proof.
  intros Htol.
  pose proof cycleEccentricity_range as He.
  assert (He1 : 0 <= cycleEccentricity < 1) by lra.
  assert (HT : 0 < cycleStep) by (unfold cycleStep; lra).
  induction fuel as [| fuel [IH1 IH2]]; [split; reflexivity |].
  rewrite !(keplerLoop_step _ _ He1), cycle_forward, cycle_backward.
  rewrite Rabs_Ropp, (Rabs_pos_eq cycleStep) by lra.
  rewrite Rltb_lt by exact Htol.
  replace (cycleAnomaly + cycleStep + - cycleStep) with cycleAnomaly by ring.
  split; assumption.
Qed.

End TwoCycle.

(** Over the reals the iteration does not end for every eccentricity below
    1.  With the mean anomaly M = PI + atan(17/4) - 17/4 (about 0.2313) and
    the eccentricity e = (17/4) / (sin M + (17/4) cos M) (about 0.9734,
    below 1) the iterates alternate between M and M + 17/4: the step is
    17/4, then -17/4, for ever, and the loop does not end for the default
    tolerance.  The two values are irrational: no binary64 number is one of
    them, and this says nothing of a call the code can receive. *)
Lemma kepler_loop_cycles_forever :
  0 <= cycleAnomaly < 2 * PI
  /\ 0 <= cycleEccentricity < 1
  /\ forall fuel : nat,
       solveKepler fuel (Fin cycleAnomaly) (Fin cycleEccentricity)
         defaultTolerance = None.
Proof.
  pose proof cycleAnomaly_range. pose proof cycleEccentricity_range.
  pose proof PI2_3_2.
  repeat split; try lra.
  intros fuel. unfold solveKepler, defaultTolerance.
  apply cycle_never_exits. unfold cycleStep. lra.
Qed.

(** ** The position of a body on a regular orbit *)

Lemma rem_Fin (r s : R) :
  s <> 0 -> rem (Fin r) (Fin s) = Fin (r - s * Rtrunc (r / s)).
Proof. intros H. unfold rem. now rewrite Reqb_neq. Qed.

(** The true anomaly is finite: at a pole of the tangent the arctangent of
    the infinity is taken. *)
Lemma trueAnomaly_finite (e E : R) :
  0 <= e < 1 ->
  exists nu : R,
    mul (Fin 2)
      (Math.atan (mul (Math.sqrt (div (add (Fin 1) (Fin e)) (sub (Fin 1) (Fin e))))
                      (Math.tan (div (Fin E) (Fin 2)))))
    = Fin nu.
Proof.
  intros He. js_eval.
  assert (Hq : 0 < (1 + e) / (1 - e)) by (apply Rdiv_lt_0_compat; lra).
  rewrite sqrt_Fin by lra.
  pose proof (sqrt_lt_R0 _ Hq) as Hs.
  unfold Math.tan.
  destruct (Reqb (cos (E / 2)) 0); [destruct (Rltb 0 (sin (E / 2))) |];
    unfold mul, scaleInf, Math.atan; rewrite ?(Rltb_lt _ _ Hs);
    eexists; reflexivity.
Qed.

Section RegularPosition.

Variable planet : Planet.
Variable spaceTime : SpaceTime.
Variables a_ e_ i_ node_ w_ m_ P_ jd_ : R.
Hypothesis Hdate : isNaN (getTime (date spaceTime)) = false.
Hypothesis Hjd : julianDay spaceTime = Fin jd_.
Hypothesis Ha : semiMajorAxis planet = Fin a_.
Hypothesis He : eccentricity planet = Fin e_.
Hypothesis Hi : inclination planet = Fin i_.
Hypothesis Hnode : longitudeOfAscendingNode planet = Fin node_.
Hypothesis Hw : argumentOfPeriapsis planet = Fin w_.
Hypothesis Hm : meanAnomaly planet = Fin m_.
Hypothesis HP : orbitalPeriod planet = Fin P_.
Hypothesis Ha0 : 0 < a_.
Hypothesis He01 : 0 <= e_ < 1.
Hypothesis HP0 : 0 < P_.

Ltac run := cbn [liftFuel when isNaN isFinite orb negb ret console_error].

Ltac to_solver :=
  unfold value, calculatePlanetPosition, tryCatch, bind, toISOString;
  rewrite Hdate, Hjd, Ha, He, Hi, Hnode, Hw, Hm, HP;
  cbv zeta; simpl; rewrite Reqb_neq by lra;
  js_eval; rewrite ?(div_Fin _ P_) by lra;
  js_eval; rewrite rem_Fin by lra;
  fold (meanAnomalyDegrees m_ P_ jd_); run; rewrite !degToRad_Fin;
  fold (meanAnomalyRadians m_ P_ jd_).

(** While the solver has not returned, nor has the function. *)
Lemma position_waits_for_solver (fuel : nat) (w : Console) :
  solveKepler fuel (Fin (meanAnomalyRadians m_ P_ jd_)) (Fin e_) defaultTolerance = None ->
  value (calculatePlanetPosition fuel planet spaceTime) w = None.
Proof. intros Hsolve. to_solver. now rewrite Hsolve. Qed.

(** With the eccentric anomaly [E] from the solver, the function returns
    the point at distance [a (1 - e cos E)]. *)
Lemma position_regular (fuel : nat) (w : Console) (E : R) :
  solveKepler fuel (Fin (meanAnomalyRadians m_ P_ jd_)) (Fin e_) defaultTolerance
  = Some (Fin E) ->
  exists U : R,
    value (calculatePlanetPosition fuel planet spaceTime) w
    = Some (Ok (pointAt i_ node_ (a_ * (1 - e_ * cos E)) U)).
Proof.
  intros Hsolve. to_solver. rewrite Hsolve. run. js_eval.
  destruct (trueAnomaly_finite e_ E He01) as [nu Hnu].
  revert Hnu. js_eval. intros Hnu. rewrite Hnu. run. js_eval. run.
  exists (w_ * PI / 180 + nu). unfold pointAt.
  destruct (lt (Fin (a_ * (1 - e_ * cos E))) (Fin 0));
    run; rewrite !degToRad_Fin; js_eval; run; rewrite !degToRad_Fin; js_eval;
    cbn [isNaN isFinite orb negb ret option_map fst]; reflexivity.
Qed.


End RegularPosition.




(** * Further properties of the code *)

(** ** Degrees and radians *)

(** X1. [degToRad] always returns a finite number: 0 when the argument is
    [NaN] or an infinity, and, in exact arithmetic, the argument times
    pi/180 when the argument is finite and of magnitude at most 5e307.
    The bound keeps the product [degrees * Math.PI] of line 6 below the
    largest binary64 number; above it the product is an infinity in the
    source and the guard of line 7 returns 0. *)
Theorem degToRad_finite_or_zero :
  forall (degrees : number) (w : Console),
    exists r : R,
      value (degToRad degrees) w = Some (Ok (Fin r))
      /\ (forall d : R,
            degrees = Fin d -> Rabs d <= 5 * 10 ^ 307 -> r = d * PI / 180)
      /\ (isFinite degrees = false -> r = 0).
Proof.
  intros degrees w. pose proof PI_RGT_0 as Hpi.
  destruct degrees as [d | | |].
  - exists (d * PI / 180). unfold value. rewrite degToRad_Fin.
    repeat split; [now intros d' [= <-] _ | discriminate].
  - exists 0. unfold value, degToRad, Math.PI, mul, scaleInf, div.
    rewrite (Rltb_lt 0 PI), (Rltb_ge 180 0) by lra.
    repeat split; discriminate.
  - exists 0. unfold value, degToRad, Math.PI, mul, scaleInf, div.
    rewrite (Rltb_lt 0 PI), (Rltb_ge 180 0) by lra.
    repeat split; discriminate.
  - exists 0. repeat split; discriminate.
Qed.

Lemma radToDeg_Fin (r : R) (w : Console) :
  radToDeg (Fin r) w = Some (Ok (Fin (r * 180 / PI)), w).
Proof.
  unfold radToDeg, Math.PI. rewrite mul_Fin, div_Fin by apply PI_neq0.
  reflexivity.
Qed.

(** X2. On finite numbers [radToDeg] and [degToRad] are inverse to each
    other, in both orders. *)
Theorem degrees_radians_round_trip :
  forall (t : R) (w : Console),
    value (bind (degToRad (Fin t)) radToDeg) w = Some (Ok (Fin t))
    /\ value (bind (radToDeg (Fin t)) degToRad) w = Some (Ok (Fin t)).
Proof.
  intros t w. pose proof PI_neq0 as Hpi.
  rewrite !value_bind, degToRad_Fin, radToDeg_Fin.
  unfold value. rewrite degToRad_Fin, radToDeg_Fin. simpl.
  split; do 3 f_equal; field; exact Hpi.
Qed.

(** ** The Julian Day *)

(** X3. [dateToJulianDay] never throws and always returns a finite number,
    whatever the date object answers. *)
Theorem julian_day_always_finite :
  forall (d : Date) (w : Console),
    exists r : R, value (dateToJulianDay d) w = Some (Ok (Fin r)).
Proof.
  intros d w.
  unfold value, dateToJulianDay, tryCatch, bind, toISOString, console_log.
  destruct (isNaN (getTime d)) eqn:Ht; simpl.
  - eexists; reflexivity.
  - destruct (rawJulianDay d) as [r | | |]; simpl; eexists; reflexivity.
Qed.

Lemma dateToJulianDay_raw (d : Date) (r : R) (w : Console) :
  isNaN (getTime d) = false -> rawJulianDay d = Fin r ->
  value (dateToJulianDay d) w = Some (Ok (Fin r)).
Proof.
  intros Ht Hraw.
  unfold value, dateToJulianDay, tryCatch, bind, toISOString, console_log.
  rewrite Ht, Hraw. reflexivity.
Qed.

(** X4. The formula is continuous across the end of a year: 1 January of
    the year after is exactly one day after 31 December, at the same time
    of day. *)
Theorem julian_day_year_boundary :
  forall (t1 t2 year hours minutes seconds : R) (iso1 iso2 : string)
         (w1 w2 : Console),
    exists jd : R,
      value (dateToJulianDay
               (calendarDate t1 year 11 31 hours minutes seconds iso1)) w1
      = Some (Ok (Fin jd))
      /\ value (dateToJulianDay
                  (calendarDate t2 (year + 1) 0 1 hours minutes seconds iso2)) w2
         = Some (Ok (Fin (jd + 1))).
Proof.
  intros t1 t2 year hours minutes seconds iso1 iso2 w1 w2.
  eexists. split.
  - apply dateToJulianDay_raw; [reflexivity |].
    unfold rawJulianDay, calendarDate.
    cbn [getMonth getFullYear getDate getHours getMinutes getSeconds].
    js_eval. rewrite (floor_Fin ((14 - (11 + 1)) / 12) 0) by lra. js_eval.
    rewrite (floor_Fin ((153 * (11 + 1 + 12 * 0 - 3) + 2) / 5) 275) by lra.
    unfold Math.floor. js_eval. reflexivity.
  - apply dateToJulianDay_raw; [reflexivity |].
    unfold rawJulianDay, calendarDate.
    cbn [getMonth getFullYear getDate getHours getMinutes getSeconds].
    js_eval. rewrite (floor_Fin ((14 - (0 + 1)) / 12) 1) by lra. js_eval.
    rewrite (floor_Fin ((153 * (0 + 1 + 12 * 1 - 3) + 2) / 5) 306) by lra.
    unfold Math.floor. js_eval.
    replace (year + 1 + 4800 - 1) with (year + 4800 - 0) by ring.
    f_equal. ring.
Qed.

(** ** The solver of Kepler's equation *)

(** X5. On a circular orbit (e = 0) the solver returns the mean anomaly
    itself after one pass of the loop, for every tolerance that is not
    negative. *)
Theorem solveKepler_circular :
  forall (M tol : R) (fuel : nat),
    0 <= tol ->
    solveKepler (S fuel) (Fin M) (Fin 0) (Fin tol) = Some (Fin M).
Proof.
  intros M tol fuel Htol. unfold solveKepler.
  rewrite (keplerLoop_step M 0) by lra.
  assert (Hd : newtonDelta M 0 M = 0) by (unfold newtonDelta; field).
  rewrite Hd, Rabs_R0, Rltb_ge by exact Htol.
  do 2 f_equal. ring.
Qed.

Lemma solveKepler_circular_witness :
  solveKepler 1 (Fin 2) (Fin 0) defaultTolerance = Some (Fin 2).
Proof. apply solveKepler_circular. lra. Defined.

(** X6. A mean anomaly that is [NaN] or an infinity does not hang the
    loop: whatever the eccentricity and the tolerance, the solver returns
    [NaN] after one pass. *)
Theorem solveKepler_non_finite :
  forall (M e tolerance : number) (fuel : nat),
    isFinite M = false ->
    solveKepler (S fuel) M e tolerance = Some NaN.
Proof.
  intros M e tolerance fuel HM.
  destruct M; try discriminate; destruct e, tolerance; reflexivity.
Qed.

Lemma solveKepler_non_finite_witness :
  solveKepler 1 PInf (Fin (1 / 2)) defaultTolerance = Some NaN.
Proof. apply solveKepler_non_finite. reflexivity. Defined.



(** X8. The solver commutes with whole turns: adding k times 2 pi to the
    mean anomaly adds the same to the result, with the same number of
    passes. *)
Theorem solveKepler_whole_turns :
  forall (M e tol : R) (k : Z) (fuel : nat),
    0 <= e < 1 ->
    solveKepler fuel (Fin (M + 2 * IZR k * PI)) (Fin e) (Fin tol)
    = option_map (fun res => add res (Fin (2 * IZR k * PI)))
        (solveKepler fuel (Fin M) (Fin e) (Fin tol)).
Proof.
  intros M e tol k fuel He. unfold solveKepler.
  apply (keplerLoop_shift e tol He _ M (isPeriod_Z k)).
Qed.

Lemma solveKepler_whole_turns_witness :
  solveKepler 5 (Fin (1 + 2 * IZR 3 * PI)) (Fin (1 / 2)) defaultTolerance
  = option_map (fun res => add res (Fin (2 * IZR 3 * PI)))
      (solveKepler 5 (Fin 1) (Fin (1 / 2)) defaultTolerance).
Proof. apply solveKepler_whole_turns. lra. Defined.

Lemma newtonDelta_opp (M e E : R) :
  0 <= e < 1 -> newtonDelta (- M) e (- E) = - newtonDelta M e E.
Proof.
  intros He. unfold newtonDelta. rewrite sin_neg, cos_neg.
  pose proof (denominator_pos e He E). field. lra.
Qed.

Lemma keplerLoop_opp (M e tol : R) (He : 0 <= e < 1) (fuel : nat) :
  forall E : R,
    keplerLoop fuel (Fin (- M)) (Fin e) (Fin tol) (Fin (- E))
    = option_map neg (keplerLoop fuel (Fin M) (Fin e) (Fin tol) (Fin E)).
Proof.
  induction fuel as [| fuel IH]; intros E; [reflexivity |].
  rewrite !(keplerLoop_step _ e He), (newtonDelta_opp M e E He), Rabs_Ropp.
  replace (- E + - newtonDelta M e E) with (- (E + newtonDelta M e E)) by ring.
  destruct (Rltb tol (Rabs (newtonDelta M e E))); [apply IH | reflexivity].
Qed.

(** X9. The solver is odd: the result for -M is the negation of the result
    for M, with the same number of passes. *)
Theorem solveKepler_odd :
  forall (M e tol : R) (fuel : nat),
    0 <= e < 1 ->
    solveKepler fuel (Fin (- M)) (Fin e) (Fin tol)
    = option_map neg (solveKepler fuel (Fin M) (Fin e) (Fin tol)).
Proof.
  intros M e tol fuel He. unfold solveKepler. now apply keplerLoop_opp.
Qed.

Lemma solveKepler_odd_witness :
  solveKepler 5 (Fin (- 1)) (Fin (1 / 2)) defaultTolerance
  = option_map neg (solveKepler 5 (Fin 1) (Fin (1 / 2)) defaultTolerance).
Proof. apply solveKepler_odd. lra. Defined.

(** From inside the basin the loop ends inside the basin. *)
Lemma basin_terminates_in_basin (M e tol : R) (n : nat) :
  0 <= e < 1 -> 0 < tol -> 0 <= M <= PI ->
  forall E : R,
    inBasin M e E -> E - M <= INR n * tol ->
    exists (fuel : nat) (E' : R),
      keplerLoop fuel (Fin M) (Fin e) (Fin tol) (Fin E) = Some (Fin E')
      /\ inBasin M e E'.
Proof.
  intros He Htol HM.
  induction n as [| n IH]; intros E Hin Hdist;
    destruct (basin_step M e He HM E Hin) as [Hneg Hnext];
    destruct (Rltb tol (Rabs (newtonDelta M e E))) eqn:Hcmp;
    try (exists 1%nat, (E + newtonDelta M e E);
         rewrite (keplerLoop_step M e He), Hcmp; split;
         [reflexivity | exact Hnext]);
    apply Rltb_true_iff in Hcmp; rewrite Rabs_left1 in Hcmp by exact Hneg.
  - simpl in Hdist. destruct Hnext as [[Hlow _] _]. lra.
  - rewrite S_INR in Hdist.
    destruct (IH (E + newtonDelta M e E)) as [fuel [E' [Hrun Hin']]];
      [exact Hnext | lra |].
    exists (S fuel), E'. rewrite (keplerLoop_step M e He).
    rewrite Rltb_lt by (rewrite Rabs_left1 by exact Hneg; lra).
    split; assumption.
Qed.

(** X10. For a mean anomaly M in [0, pi], an eccentricity up to 0.9 and a
    positive tolerance, the solver returns an eccentric anomaly E in the
    same half turn, not below M and not below the root: M <= E <= pi and
    E - e sin E >= M. *)
Theorem solveKepler_first_half_range :
  forall M e tol : R,
    0 <= M <= PI -> 0 <= e <= 9 / 10 -> 0 < tol ->
    exists (fuel : nat) (E : R),
      solveKepler fuel (Fin M) (Fin e) (Fin tol) = Some (Fin E)
      /\ M <= E <= PI
      /\ M <= E - e * sin E.
Proof.
  intros M e tol HM He Htol.
  assert (He1 : 0 <= e < 1) by lra.
  pose proof (first_step_in_basin M e He1 HM ltac:(lra)) as Hin.
  assert (Hgoal : exists (fuel : nat) (E : R),
            solveKepler fuel (Fin M) (Fin e) (Fin tol) = Some (Fin E)
            /\ inBasin M e E).
  { unfold solveKepler.
    destruct (Rltb tol (Rabs (newtonDelta M e M))) eqn:Hcmp.
    - destruct (enough_steps M tol Htol HM) as [n Hn].
      destruct (basin_terminates_in_basin M e tol n He1 Htol HM _ Hin)
        as [fuel [E' [Hrun Hin']]].
      { destruct Hin as [[_ Hup] _]. lra. }
      exists (S fuel), E'. rewrite (keplerLoop_step M e He1), Hcmp. auto.
    - exists 1%nat, (M + newtonDelta M e M).
      rewrite (keplerLoop_step M e He1), Hcmp. auto. }
  destruct Hgoal as [fuel [E [Hrun [Hrange Hres]]]].
  exists fuel, E. unfold keplerResidual in Hres. repeat split; try lra; exact Hrun.
Qed.

Lemma solveKepler_first_half_range_witness :
  exists (fuel : nat) (E : R),
    solveKepler fuel (Fin 1) (Fin (1 / 2)) defaultTolerance = Some (Fin E)
    /\ 1 <= E <= PI
    /\ 1 <= E - 1 / 2 * sin E.
Proof.
  apply (solveKepler_first_half_range 1 (1 / 2) (1 / 100000000)); try lra.
  pose proof PI2_3_2. lra.
Defined.

(** ** What [calculatePlanetPosition] returns *)

Section ReturnsOnly.

Context {A B : Type}.

Lemma returnsOnly_ret (P : A -> Prop) (a : A) : P a -> returnsOnly P (ret a).
Proof. intros HP w a' w' [= <- _]. exact HP. Qed.

Lemma returnsOnly_any (m : IO A) : returnsOnly (fun _ => True) m.
Proof. intros w a w' _. exact I. Qed.

Lemma returnsOnly_bind (Q : A -> Prop) (P : B -> Prop) (m : IO A) (k : A -> IO B) :
  returnsOnly Q m -> (forall a, Q a -> returnsOnly P (k a)) ->
  returnsOnly P (bind m k).
Proof.
  intros Hm Hk w b w' Hrun. unfold bind in Hrun.
  destruct (m w) as [[[a | err] w1] |] eqn:Hmw; try discriminate.
  exact (Hk a (Hm w a w1 Hmw) w1 b w' Hrun).
Qed.

Lemma returnsOnly_tryCatch (P : A -> Prop) (body : IO A) (handler : string -> IO A) :
  returnsOnly P body -> (forall error, returnsOnly P (handler error)) ->
  returnsOnly P (tryCatch body handler).
Proof.
  intros Hb Hh w a w' Hrun. unfold tryCatch in Hrun.
  destruct (body w) as [[[a0 | err] w1] |] eqn:Hbw; try discriminate.
  - injection Hrun as <- <-. exact (Hb w a0 w1 Hbw).
  - exact (Hh err w1 a w' Hrun).
Qed.

End ReturnsOnly.

Lemma returnsOnly_degToRad_Fin (d : R) :
  returnsOnly (fun a => a = Fin (d * PI / 180)) (degToRad (Fin d)).
Proof. intros w a w' Hrun. rewrite degToRad_Fin in Hrun. congruence. Qed.

(** One step through a computation whose intermediate values do not
    matter. *)
Ltac returns_step :=
  first
    [ progress cbv zeta
    | apply returnsOnly_tryCatch
    | apply returnsOnly_ret
    | match goal with
      | |- returnsOnly _ (bind (degToRad (Fin _)) _) =>
          eapply returnsOnly_bind; [apply returnsOnly_degToRad_Fin | intros ? ?]
      | |- returnsOnly _ (bind _ _) =>
          eapply returnsOnly_bind; [apply returnsOnly_any | intros ? _]
      | |- returnsOnly _ (if ?c then _ else _) => destruct c eqn:?
      | |- forall _, _ => intro
      end ].

Lemma finitePosition_origin : finitePosition origin.
Proof. repeat split. Qed.

Lemma guard_false_finite (X Y Z : number) :
  isNaN X || isNaN Y || isNaN Z
  || negb (isFinite X) || negb (isFinite Y) || negb (isFinite Z) = false ->
  isFinite X = true /\ isFinite Y = true /\ isFinite Z = true.
Proof. destruct X, Y, Z; simpl; intros H; try discriminate; auto. Qed.

Lemma returnsOnly_finitePosition
    (fuel : nat) (planet : Planet) (spaceTime : SpaceTime) :
  returnsOnly finitePosition (calculatePlanetPosition fuel planet spaceTime).
Proof.
  unfold calculatePlanetPosition.
  repeat returns_step; try apply finitePosition_origin.
  unfold finitePosition. cbn [x y z]. now apply guard_false_finite.
Qed.

(** X11. With a Julian Day that is [NaN] the function returns the origin,
    for every planet, date and amount of fuel. *)
Theorem position_origin_for_NaN_julian_day :
  forall (fuel : nat) (planet : Planet) (spaceTime : SpaceTime) (w : Console),
    julianDay spaceTime = NaN ->
    value (calculatePlanetPosition fuel planet spaceTime) w = Some (Ok origin).
Proof.
  intros fuel planet spaceTime w Hjd.
  unfold value, calculatePlanetPosition, tryCatch, bind, toISOString.
  destruct (isNaN (getTime (date spaceTime))); simpl; [reflexivity |].
  destruct (strictEq (semiMajorAxis planet) (Fin 0)); simpl; [reflexivity |].
  rewrite Hjd. reflexivity.
Qed.

Lemma position_origin_for_NaN_julian_day_witness :
  value (calculatePlanetPosition 7 earth {| date := validDate; julianDay := NaN |}) []
  = Some (Ok origin).
Proof. apply position_origin_for_NaN_julian_day. reflexivity. Defined.

(** X12. Whatever the elements and the instant, [calculatePlanetPosition]
    ends in no exception, and the position it returns has three finite
    coordinates: never [NaN], never an infinity. *)
Theorem position_always_finite :
  forall (fuel : nat) (planet : Planet) (spaceTime : SpaceTime) (w : Console),
    match value (calculatePlanetPosition fuel planet spaceTime) w with
    | Some (Ok pos) => finitePosition pos
    | Some (Exn _) => False
    | None => True
    end.
Proof.
  intros fuel planet spaceTime w.
  pose proof (returnsOnly_finitePosition fuel planet spaceTime w) as Hfin.
  pose proof (calculatePlanetPosition_returns_or_diverges fuel planet spaceTime w)
    as Hret.
  unfold value in *.
  destruct (calculatePlanetPosition fuel planet spaceTime w) as [[[pos | err] w'] |];
    simpl in *.
  - now apply (Hfin pos w').
  - destruct (position fuel planet spaceTime); discriminate.
  - exact I.
Qed.

Lemma mul_zero_finite (n : number) (s : R) :
  s = 0 -> isFinite (mul n (Fin s)) = true -> mul n (Fin s) = Fin 0.
Proof.
  intros -> H. destruct n as [v | | |]; unfold mul, scaleInf in *;
    rewrite ?(Rltb_ge 0 0) in * by lra; try discriminate.
  f_equal. ring.
Qed.

(** A body on a regular orbit is placed: with enough fuel for the solver,
    and with any more, the function returns a position. *)
Lemma regular_position_returns (planet : Planet) (spaceTime : SpaceTime) :
  regularOrbit planet -> regularInstant spaceTime ->
  exists fuel : nat,
    forall (fuel' : nat) (w : Console), (fuel <= fuel')%nat ->
      exists pos : OrbitalPosition,
        value (calculatePlanetPosition fuel' planet spaceTime) w = Some (Ok pos).
Proof.
  intros [a_ [e_ [P_ [Ha [He [HP [Ha0 [He9 [HP0 [Hi [Hnode [Hw Hm]]]]]]]]]]]]
         [Hdate Hjd].
  destruct (isFinite_Fin _ Hi) as [i_ Hi'].
  destruct (isFinite_Fin _ Hnode) as [node_ Hnode'].
  destruct (isFinite_Fin _ Hw) as [w_ Hw'].
  destruct (isFinite_Fin _ Hm) as [m_ Hm'].
  destruct (isFinite_Fin _ Hjd) as [jd_ Hjd'].
  assert (He01 : 0 <= e_ < 1) by lra.
  assert (Htol : 0 < 1 / 100000000) by lra.
  set (Mrad := meanAnomalyRadians m_ P_ jd_).
  destruct (solveKepler_terminates e_ (1 / 100000000) He9 Htol Mrad)
    as [fuel [res Hsolve]].
  destruct (keplerLoop_exit Mrad e_ He01 _ fuel Mrad res Hsolve) as [E0 [-> _]].
  exists fuel. intros fuel' w Hle.
  assert (Hmore : solveKepler fuel' (Fin Mrad) (Fin e_) defaultTolerance
                  = Some (Fin (E0 + newtonDelta Mrad e_ E0))).
  { induction Hle as [| fuel' Hle IH]; [exact Hsolve |].
    apply (keplerLoop_more_fuel Mrad e_ He01), IH. }
  destruct (position_regular planet spaceTime a_ e_ i_ node_ w_ m_ P_ jd_
              Hdate Hjd' Ha He Hi' Hnode' Hw' Hm' HP Ha0 He01 HP0 fuel' w _ Hmore)
    as [U HU].
  eexists. exact HU.
Qed.

(** X13. A body of inclination 0 stays in the reference plane: every
    position [calculatePlanetPosition] returns for it has z = 0, whatever
    the other elements and the instant; and on a regular orbit, at an
    instant with a valid date and a finite Julian Day, the function does
    return such a position, with enough fuel for the solver (in exact
    arithmetic). *)
Theorem position_in_reference_plane :
  forall (planet : Planet) (spaceTime : SpaceTime),
    inclination planet = Fin 0 ->
    (forall (fuel : nat) (w : Console) (pos : OrbitalPosition),
        value (calculatePlanetPosition fuel planet spaceTime) w = Some (Ok pos) ->
        z pos = Fin 0)
    /\ (regularOrbit planet -> regularInstant spaceTime ->
        exists fuel : nat,
          forall (fuel' : nat) (w : Console), (fuel <= fuel')%nat ->
            exists pos : OrbitalPosition,
              value (calculatePlanetPosition fuel' planet spaceTime) w
              = Some (Ok pos)
              /\ z pos = Fin 0).
Proof.
  intros planet spaceTime Hi.
  assert (Hplane : forall (fuel : nat) (w : Console) (pos : OrbitalPosition),
             value (calculatePlanetPosition fuel planet spaceTime) w = Some (Ok pos) ->
             z pos = Fin 0).
  { intros fuel w pos Hrun.
    assert (Hall : returnsOnly (fun p => z p = Fin 0)
                     (calculatePlanetPosition fuel planet spaceTime)).
    { unfold calculatePlanetPosition. rewrite Hi.
      repeat returns_step; try reflexivity.
      cbv beta in *. subst. cbn [x y z].
      match goal with
      | H : _ || _ = false |- _ => apply guard_false_finite in H;
                                   destruct H as [_ [_ Hz]]
      end.
      rewrite sin_Fin in *. apply mul_zero_finite; [| exact Hz].
      rewrite deg_0. apply sin_0. }
    unfold value in Hrun.
    destruct (calculatePlanetPosition fuel planet spaceTime w) as [[r w'] |] eqn:Hc;
      [| discriminate].
    injection Hrun as ->. exact (Hall w pos w' Hc). }
  split; [exact Hplane |].
  intros Hreg Hinstant.
  destruct (regular_position_returns planet spaceTime Hreg Hinstant) as [fuel Hfuel].
  exists fuel. intros fuel' w Hle.
  destruct (Hfuel fuel' w Hle) as [pos Hpos].
  exists pos. split; [exact Hpos | exact (Hplane fuel' w pos Hpos)].
Qed.

Lemma position_in_reference_plane_witness :
  exists (fuel : nat) (pos : OrbitalPosition),
    value (calculatePlanetPosition fuel earth epoch) [] = Some (Ok pos)
    /\ z pos = Fin 0.
Proof.
  destruct (position_in_reference_plane earth epoch eq_refl) as [_ Hreturns].
  destruct Hreturns as [fuel Hfuel].
  - exists (15 / 10), (16708 / 1000000), (365256 / 1000).
    repeat split; try reflexivity; lra.
  - split; reflexivity.
  - destruct (Hfuel fuel [] (le_n fuel)) as [pos Hpos].
    exists fuel, pos. exact Hpos.
Defined.

(** ** Screen coordinates *)

Lemma degToRad_non_finite (degrees : number) (w : Console) :
  isFinite degrees = false ->
  exists w', degToRad degrees w = Some (Ok (Fin 0), w').
Proof.
  intros H. pose proof PI_RGT_0 as Hpi.
  destruct degrees; try discriminate;
    unfold degToRad, Math.PI, mul, scaleInf, div;
    rewrite ?(Rltb_lt 0 PI), ?(Rltb_ge 180 0) by lra; simpl; eexists; reflexivity.
Qed.

Lemma degToRad_runs (degrees : number) (w : Console) :
  exists (r : R) (w' : Console), degToRad degrees w = Some (Ok (Fin r), w').
Proof.
  destruct degrees as [d | | |].
  - exists (d * PI / 180), w. apply degToRad_Fin.
  - destruct (degToRad_non_finite PInf w eq_refl) as [w' H]. now exists 0, w'.
  - destruct (degToRad_non_finite NInf w eq_refl) as [w' H]. now exists 0, w'.
  - destruct (degToRad_non_finite NaN w eq_refl) as [w' H]. now exists 0, w'.
Qed.

Ltac screen_run :=
  unfold value, orbitalToScreenCoordinates, tryCatch, bind, console_log,
    console_error, ret.

(** X14. [orbitalToScreenCoordinates] always returns, without an exception,
    and neither coordinate it returns is [NaN]. *)
Theorem screen_coordinates_never_NaN :
  forall (pos : OrbitalPosition) (centerX centerY scale angle : number)
         (w : Console),
    exists sp : Screen.ScreenPosition,
      value (orbitalToScreenCoordinates pos centerX centerY scale angle) w
      = Some (Ok sp)
      /\ isNaN (Screen.x sp) = false /\ isNaN (Screen.y sp) = false.
Proof.
  intros pos centerX centerY scale angle w. screen_run.
  destruct (isNaN centerX || isNaN centerY || isNaN scale) eqn:Hguard.
  - eexists. simpl. repeat split.
  - apply orb_false_elim in Hguard. destruct Hguard as [Hguard _].
    apply orb_false_elim in Hguard. destruct Hguard as [Hx Hy].
    match goal with
    | |- context [degToRad angle ?w1] =>
        destruct (degToRad_runs angle w1) as [r1 [w2 ->]]
    end.
    destruct (degToRad_runs angle w2) as [r2 [w3 ->]].
    rewrite sin_Fin, cos_Fin. cbn [isNaN orb].
    match goal with
    | |- context [if ?c then _ else _] => destruct c eqn:Hbad
    end.
    + eexists. simpl. repeat split; assumption.
    + eexists. simpl. split; [reflexivity |].
      cbn [Screen.x Screen.y].
      apply orb_false_elim in Hbad. destruct Hbad as [Hbad _].
      apply orb_false_elim in Hbad. destruct Hbad as [Hbad _].
      apply orb_false_elim in Hbad. destruct Hbad as [H1 H2]. auto.
Qed.

(** X15. A projection angle that is [NaN] or an infinity is treated as the
    angle 0. *)
Theorem screen_coordinates_non_finite_angle :
  forall (pos : OrbitalPosition) (centerX centerY scale angle : number)
         (w : Console),
    isFinite angle = false ->
    value (orbitalToScreenCoordinates pos centerX centerY scale angle) w
    = value (orbitalToScreenCoordinates pos centerX centerY scale (Fin 0)) w.
Proof.
  intros pos centerX centerY scale angle w Hangle. screen_run.
  destruct (isNaN centerX || isNaN centerY || isNaN scale); [reflexivity |].
  match goal with
  | |- context [degToRad angle ?w1] =>
      destruct (degToRad_non_finite angle w1 Hangle) as [w2 ->]
  end.
  destruct (degToRad_non_finite angle w2 Hangle) as [w3 ->].
  rewrite !degToRad_Fin, deg_0, sin_Fin, cos_Fin. cbn [isNaN orb].
  repeat match goal with
         | |- context [if ?c then _ else _] => destruct c
         end; reflexivity.
Qed.

Lemma screen_coordinates_non_finite_angle_witness :
  value (orbitalToScreenCoordinates origin (Fin 400) (Fin 300) (Fin 50) NaN) []
  = value (orbitalToScreenCoordinates origin (Fin 400) (Fin 300) (Fin 50) (Fin 0)) [].
Proof. apply screen_coordinates_non_finite_angle. reflexivity. Defined.

(** X16. The origin, where the central body is, is drawn at the centre of
    the screen: for every centre and scale that are not [NaN] and every
    projection angle. *)
Theorem screen_coordinates_of_origin :
  forall (centerX centerY scale angle : number) (w : Console),
    isNaN centerX = false -> isNaN centerY = false -> isNaN scale = false ->
    value (orbitalToScreenCoordinates origin centerX centerY scale angle) w
    = Some (Ok {| Screen.x := centerX; Screen.y := centerY |}).
Proof.
  intros centerX centerY scale angle w Hx Hy Hs. screen_run.
  rewrite Hx, Hy, Hs. cbn [orb].
  match goal with
  | |- context [degToRad angle ?w1] =>
      destruct (degToRad_runs angle w1) as [r1 [w2 ->]]
  end.
  destruct (degToRad_runs angle w2) as [r2 [w3 ->]].
  unfold origin. cbn [x y z]. rewrite sin_Fin, cos_Fin. cbn [isNaN orb].
  rewrite !mul_Fin, sub_Fin.
  replace (0 * cos r1 - 0 * sin r2) with 0 by ring.
  destruct scale as [s | | |]; try discriminate;
    destruct centerX as [cx | | |]; try discriminate;
    destruct centerY as [cy | | |]; try discriminate;
    unfold mul, scaleInf, add; rewrite ?(Rltb_ge 0 0) by lra;
    cbn [isNaN isFinite orb negb option_map fst]; try reflexivity.
  do 3 f_equal; f_equal; ring.
Qed.

Lemma screen_coordinates_of_origin_witness :
  value (orbitalToScreenCoordinates origin (Fin 400) PInf NInf (Fin 30)) []
  = Some (Ok {| Screen.x := Fin 400; Screen.y := PInf |}).
Proof. apply screen_coordinates_of_origin; reflexivity. Defined.

(** ** The ellipse and its path *)

(** X17. For a semi-major axis a >= 0 and an eccentricity between 0 and 1
    the semi-minor axis of [getOrbitalEllipse] is a finite number between 0
    and a, and it equals a on a circular orbit. *)
Theorem semi_minor_axis_bounds :
  forall (planet : Planet) (a_ e_ : R),
    semiMajorAxis planet = Fin a_ -> eccentricity planet = Fin e_ ->
    0 <= a_ -> 0 <= e_ <= 1 ->
    exists b_ : R,
      b (getOrbitalEllipse planet) = Fin b_
      /\ 0 <= b_ <= a_
      /\ (e_ = 0 -> b_ = a_).
Proof.
  intros planet a_ e_ Ha He Ha0 He01.
  assert (Hle : e_ * e_ <= 1) by nra.
  exists (a_ * sqrt (1 - e_ * e_)). split; [now apply ellipse_b |].
  pose proof (sqrt_pos (1 - e_ * e_)) as H0.
  assert (H1 : sqrt (1 - e_ * e_) <= 1).
  { rewrite <- sqrt_1 at 2. apply sqrt_le_1_alt. nra. }
  repeat split; try nra.
  intros ->. replace (1 - 0 * 0) with 1 by ring. rewrite sqrt_1. ring.
Qed.

Lemma semi_minor_axis_bounds_witness :
  exists b_ : R,
    b (getOrbitalEllipse earth) = Fin b_
    /\ 0 <= b_ <= 15 / 10
    /\ (16708 / 1000000 = 0 -> b_ = 15 / 10).
Proof.
  apply (semi_minor_axis_bounds earth (15 / 10) (16708 / 1000000));
    try reflexivity; lra.
Defined.

Section NaNAbsorbs.

Variable n : number.

Lemma mul_NaN_l : mul NaN n = NaN.
Proof. now destruct n. Qed.

Lemma mul_NaN_r : mul n NaN = NaN.
Proof. now destruct n. Qed.

Lemma add_NaN_l : add NaN n = NaN.
Proof. now destruct n. Qed.

Lemma add_NaN_r : add n NaN = NaN.
Proof. now destruct n. Qed.

Lemma sub_NaN_l : sub NaN n = NaN.
Proof. now destruct n. Qed.

Lemma sub_NaN_r : sub n NaN = NaN.
Proof. now destruct n. Qed.

End NaNAbsorbs.

Create Rewrite HintDb nan.
#[global] Hint Rewrite mul_NaN_l mul_NaN_r add_NaN_l add_NaN_r sub_NaN_l
  sub_NaN_r : nan.

(** A point of the orbital plane with a [NaN] coordinate is rotated to the
    point with three [NaN] coordinates. *)
Lemma applyRotations_NaN (ellipse : Ellipse) (x_ : number) :
  applyRotations ellipse x_ NaN = nanVector
  /\ applyRotations ellipse NaN x_ = nanVector.
Proof. unfold applyRotations, nanVector. now autorewrite with nan. Qed.

(** X18. An eccentricity above 1 (or below -1) is not rejected: the
    semi-minor axis is [NaN], and every point of the path has three [NaN]
    coordinates. *)
Theorem path_of_hyperbolic_elements :
  forall (planet : Planet) (e_ : R) (segments : nat),
    eccentricity planet = Fin e_ -> 1 < e_ * e_ ->
    b (getOrbitalEllipse planet) = NaN
    /\ Forall (fun p => p = nanVector) (generateOrbitalPath planet segments).
Proof.
  intros planet e_ segments He Hbig.
  assert (Hb : b (getOrbitalEllipse planet) = NaN).
  { unfold getOrbitalEllipse. cbn [b]. rewrite He, mul_Fin, sub_Fin.
    unfold Math.sqrt. rewrite Rltb_lt by lra. apply mul_NaN_r. }
  split; [exact Hb |].
  unfold generateOrbitalPath. apply Forall_forall. intros p Hin.
  apply in_map_iff in Hin. destruct Hin as [i [<- _]].
  unfold pathPoint. rewrite Hb, mul_NaN_l. apply applyRotations_NaN.
Qed.

Lemma path_of_hyperbolic_elements_witness :
  b (getOrbitalEllipse (oriented 1 2 0)) = NaN
  /\ Forall (fun p => p = nanVector) (generateOrbitalPath (oriented 1 2 0) 64).
Proof. apply (path_of_hyperbolic_elements (oriented 1 2 0) 2); [reflexivity | lra]. Defined.

(** X19. With 0 segments the path is a single point, and its three
    coordinates are [NaN]: the angle of the only sample is 0/0. *)
Theorem path_of_zero_segments :
  forall planet : Planet, generateOrbitalPath planet 0 = [nanVector].
Proof.
  intros planet. unfold generateOrbitalPath. cbn [seq map]. f_equal.
  unfold pathPoint.
  assert (Hangle : mul (mul (div (Fin (INR 0)) (Fin (INR 0))) (Fin 2)) Math.PI = NaN).
  { unfold div. cbn [INR]. rewrite Reqb_refl. unfold scaleInf.
    rewrite (Rltb_ge 0 0) by lra. reflexivity. }
  rewrite Hangle. unfold Math.cos at 1. rewrite mul_NaN_r.
  apply applyRotations_NaN.
Qed.

Section RotationLength.

Variable planet : Planet.
Variables i_ node_ w_ : R.
Hypothesis Hi : inclination planet = Fin i_.
Hypothesis Hnode : longitudeOfAscendingNode planet = Fin node_.
Hypothesis Hw : argumentOfPeriapsis planet = Fin w_.

(** The three rotations keep the distance from the origin. *)
Lemma applyRotations_length (X Y : R) :
  vectorLength (applyRotations (getOrbitalEllipse planet) (Fin X) (Fin Y))
  = Fin (sqrt (X * X + Y * Y)).
Proof.
  unfold vectorLength, applyRotations, getOrbitalEllipse.
  cbn [ellipseArgumentOfPeriapsis ellipseInclination longitudeOfNode
       THREE.x THREE.y THREE.z].
  rewrite Hi, Hnode, Hw. js_eval.
  set (W := w_ * PI / 180). set (I := i_ * PI / 180). set (O := node_ * PI / 180).
  pose proof (sin2_cos2 W) as HW. pose proof (sin2_cos2 I) as HI.
  pose proof (sin2_cos2 O) as HO. unfold Rsqr in *.
  set (sw := sin W) in *. set (cw := cos W) in *.
  set (si := sin I) in *. set (ci := cos I) in *.
  set (so := sin O) in *. set (co := cos O) in *.
  match goal with
  | |- Math.sqrt (Fin ?q) = _ =>
      assert (Hq : q = X * X + Y * Y)
  end.
  { match goal with
    | |- ?q = _ =>
        replace q with
          ((so * so + co * co) * ((X * cw - Y * sw) * (X * cw - Y * sw))
           + (X * sw + Y * cw) * (X * sw + Y * cw)
             * ((so * so + co * co) * (ci * ci) + si * si)) by ring
    end.
    rewrite HO, !Rmult_1_l, (Rplus_comm (ci * ci)), HI, Rmult_1_r.
    replace ((X * cw - Y * sw) * (X * cw - Y * sw)
             + (X * sw + Y * cw) * (X * sw + Y * cw))
      with ((X * X + Y * Y) * (sw * sw + cw * cw)) by ring.
    rewrite HW. ring. }
  rewrite Hq. apply sqrt_Fin. nra.
Qed.

End RotationLength.

(** X20. In exact arithmetic, for finite elements with a >= 0 and
    0 <= e <= 1, and at least one segment, every point of the path lies at
    a distance from the origin between the semi-minor axis a sqrt(1 - e^2)
    and the semi-major axis a: the ellipse is centred on the origin, not on
    a focus.  The bounds are those of the exact values; binary64 rounding
    can move a point past a bound by an ulp. *)
Theorem path_points_between_axes :
  forall (planet : Planet) (a_ e_ i_ node_ w_ : R) (segments : nat),
    semiMajorAxis planet = Fin a_ -> eccentricity planet = Fin e_ ->
    inclination planet = Fin i_ ->
    longitudeOfAscendingNode planet = Fin node_ ->
    argumentOfPeriapsis planet = Fin w_ ->
    0 <= a_ -> 0 <= e_ <= 1 -> (1 <= segments)%nat ->
    Forall (fun p => exists d : R,
                vectorLength p = Fin d
                /\ a_ * sqrt (1 - e_ * e_) <= d <= a_)
      (generateOrbitalPath planet segments).
Proof.
  intros planet a_ e_ i_ node_ w_ segments Ha He Hi Hnode Hw Ha0 He01 Hseg.
  assert (Hle : e_ * e_ <= 1) by nra.
  apply Forall_forall. intros p Hin.
  unfold generateOrbitalPath in Hin. apply in_map_iff in Hin.
  destruct Hin as [i [<- _]].
  assert (HN : INR segments <> 0) by (apply not_0_INR; lia).
  rewrite div_Fin by exact HN. unfold pathPoint.
  rewrite (ellipse_b planet a_ e_ Ha He Hle).
  change (a (getOrbitalEllipse planet)) with (semiMajorAxis planet).
  rewrite Ha. js_eval.
  rewrite (applyRotations_length planet i_ node_ w_ Hi Hnode Hw).
  set (t := INR i / INR segments * 2 * PI).
  set (b_ := a_ * sqrt (1 - e_ * e_)).
  pose proof (sqrt_pos (1 - e_ * e_)) as Hs0.
  assert (Hs1 : sqrt (1 - e_ * e_) <= 1).
  { rewrite <- sqrt_1 at 2. apply sqrt_le_1_alt. nra. }
  assert (Hb : 0 <= b_ <= a_) by (unfold b_; split; nra).
  pose proof (sin2_cos2 t) as Ht. unfold Rsqr in Ht.
  pose proof (Rle_0_sqr (sin t)) as Hs2. pose proof (Rle_0_sqr (cos t)) as Hc2.
  unfold Rsqr in Hs2, Hc2.
  eexists. split; [reflexivity |].
  assert (Hab : 0 <= a_ * a_ - b_ * b_) by nra.
  pose proof (Rmult_le_pos _ _ Hab Hc2) as Hpc.
  pose proof (Rmult_le_pos _ _ Hab Hs2) as Hps.
  assert (Hlow : b_ * b_ <= a_ * cos t * (a_ * cos t) + b_ * sin t * (b_ * sin t)).
  { replace (b_ * b_) with (b_ * b_ * (sin t * sin t + cos t * cos t))
      by (rewrite Ht; ring). lra. }
  assert (Hup : a_ * cos t * (a_ * cos t) + b_ * sin t * (b_ * sin t) <= a_ * a_).
  { replace (a_ * a_) with (a_ * a_ * (sin t * sin t + cos t * cos t))
      by (rewrite Ht; ring). lra. }
  split.
  - apply Rle_trans with (sqrt (b_ * b_));
      [rewrite sqrt_square by lra; unfold b_; lra
      | apply sqrt_le_1_alt; exact Hlow].
  - apply Rle_trans with (sqrt (a_ * a_));
      [apply sqrt_le_1_alt; exact Hup | rewrite sqrt_square by lra; lra].
Qed.

Lemma path_points_between_axes_witness :
  Forall (fun p => exists d : R,
              vectorLength p = Fin d
              /\ 15 / 10 * sqrt (1 - 16708 / 1000000 * (16708 / 1000000)) <= d
                 <= 15 / 10)
    (generateOrbitalPath earth 64).
Proof.
  apply (path_points_between_axes earth (15 / 10) (16708 / 1000000) 0
           (348739 / 1000) (114207 / 1000) 64); try reflexivity; try lra; lia.
Defined.

(** X30. In exact arithmetic the path is a closed loop: for every elements
    value and every segment count N >= 1, [generateOrbitalPath] returns
    exactly N + 1 points, and the first and the last of them are the same
    point.  The last angle is (N/N) * 2 * Math.PI, whose sine and cosine
    are those of 0 when [Math.PI] is pi; in binary64 the sine of
    2 * Math.PI is about -2.4e-16 and the two points differ in the last
    bits. *)
Theorem path_closes_in_exact_arithmetic :
  forall (planet : Planet) (N : nat),
    (1 <= N)%nat ->
    List.length (generateOrbitalPath planet N) = (N + 1)%nat
    /\ exists p : THREE.Vector3,
         nth_error (generateOrbitalPath planet N) 0 = Some p
         /\ nth_error (generateOrbitalPath planet N) N = Some p.
Proof.
  intros planet N HN. split.
  - rewrite length_generateOrbitalPath. lia.
  - destruct N as [| n]; [lia |].
    exists (pathPoint (getOrbitalEllipse planet) (Fin 0)).
    rewrite !nth_error_generateOrbitalPath by lia.
    now rewrite sampleAngle_first, sampleAngle_last, pathPoint_full_turn.
Qed.

Lemma path_closes_in_exact_arithmetic_witness :
  List.length (generateOrbitalPath earth 64) = 65%nat
  /\ exists p : THREE.Vector3,
       nth_error (generateOrbitalPath earth 64) 0 = Some p
       /\ nth_error (generateOrbitalPath earth 64) 64 = Some p.
Proof. apply (path_closes_in_exact_arithmetic earth 64). lia. Defined.

(** ** Positions relative to another body *)

Lemma position_finite (fuel : nat) (planet : Planet) (spaceTime : SpaceTime)
    (pos : OrbitalPosition) :
  position fuel planet spaceTime = Some pos ->
  exists X Y Z : R, pos = {| x := Fin X; y := Fin Y; z := Fin Z |}.
Proof.
  unfold position, value. intros Hpos.
  destruct (calculatePlanetPosition fuel planet spaceTime [])
    as [[[p | err] w'] |] eqn:Hrun; simpl in Hpos; try discriminate.
  injection Hpos as ->.
  destruct (returnsOnly_finitePosition fuel planet spaceTime [] pos w' Hrun)
    as [Hx [Hy Hz]].
  destruct pos as [[X | | |] [Y | | |] [Z | | |]]; simpl in *; try discriminate.
  now exists X, Y, Z.
Qed.

Lemma position_central (fuel : nat) (planet : Planet) (spaceTime : SpaceTime) :
  semiMajorAxis planet = Fin 0 -> position fuel planet spaceTime = Some origin.
Proof.
  intros Ha. unfold position, value, calculatePlanetPosition, tryCatch, bind,
    toISOString.
  destruct (isNaN (getTime (date spaceTime))); simpl; [reflexivity |].
  rewrite Ha. simpl. rewrite Reqb_refl. reflexivity.
Qed.

(** The central body and the bodies on regular orbits are placed at every
    regular instant, given enough fuel for the solver. *)
Lemma placed_position_returns (planet : Planet) (spaceTime : SpaceTime) :
  placedBody planet -> regularInstant spaceTime ->
  exists fuel : nat,
    forall fuel' : nat, (fuel <= fuel')%nat ->
      exists pos : OrbitalPosition, position fuel' planet spaceTime = Some pos.
Proof.
  intros [Ha | Hreg] Hinstant.
  - exists 0%nat. intros fuel' _. exists origin. now apply position_central.
  - destruct (regular_position_returns planet spaceTime Hreg Hinstant)
      as [fuel Hfuel].
    exists fuel. intros fuel' Hle. destruct (Hfuel fuel' [] Hle) as [pos Hpos].
    exists pos. unfold position. now rewrite Hpos.
Qed.

Lemma placed_positions_return (planets : list Planet) (spaceTime : SpaceTime) :
  Forall placedBody planets -> regularInstant spaceTime ->
  exists fuel : nat,
    forall fuel' : nat, (fuel <= fuel')%nat ->
      Forall (fun planet =>
                exists pos : OrbitalPosition,
                  position fuel' planet spaceTime = Some pos)
        planets.
Proof.
  intros Hall Hinstant.
  induction Hall as [| planet rest Hplanet Hrest IH].
  - exists 0%nat. intros fuel' _. constructor.
  - destruct IH as [fuelRest HfuelRest].
    destruct (placed_position_returns planet spaceTime Hplanet Hinstant)
      as [fuel Hfuel].
    exists (Nat.max fuel fuelRest). intros fuel' Hle.
    constructor; [apply Hfuel | apply HfuelRest]; lia.
Qed.

(** X21. Seen from itself a body is at the origin: whenever
    [calculatePlanetPosition] returns for it, [calculateRelativePosition]
    of the body and itself returns (0, 0, 0). *)
Theorem relative_position_to_itself :
  forall (fuel : nat) (planet : Planet) (spaceTime : SpaceTime) (w : Console),
    value (calculateRelativePosition fuel planet planet spaceTime) w
    = option_map (fun _ => Ok origin) (position fuel planet spaceTime).
Proof.
  intros fuel planet spaceTime w. rewrite value_calculateRelativePosition.
  destruct (position fuel planet spaceTime) as [pos |] eqn:Hpos; [| reflexivity].
  destruct (position_finite _ _ _ _ Hpos) as [X [Y [Z ->]]].
  unfold difference, origin. cbn [x y z option_map]. rewrite !sub_Fin.
  do 3 f_equal; f_equal; ring.
Qed.

(** X22. Re-centring on a body with semi-major axis 0 changes nothing: the
    position of a planet relative to it is the position of the planet. *)
Theorem relative_position_from_central_body :
  forall (fuel : nat) (central planet : Planet) (spaceTime : SpaceTime)
         (w : Console),
    semiMajorAxis central = Fin 0 ->
    value (calculateRelativePosition fuel central planet spaceTime) w
    = option_map Ok (position fuel planet spaceTime).
Proof.
  intros fuel central planet spaceTime w Ha.
  rewrite value_calculateRelativePosition, (position_central _ _ _ Ha).
  destruct (position fuel planet spaceTime) as [pos |] eqn:Hpos; [| reflexivity].
  destruct (position_finite _ _ _ _ Hpos) as [X [Y [Z ->]]].
  unfold difference, origin. cbn [x y z option_map]. rewrite !sub_Fin.
  do 3 f_equal; f_equal; ring.
Qed.

Lemma relative_position_from_central_body_witness :
  value (calculateRelativePosition 40 sun earth
           {| date := validDate; julianDay := Fin 2451545 |}) []
  = option_map Ok
      (position 40 earth {| date := validDate; julianDay := Fin 2451545 |}).
Proof. apply relative_position_from_central_body. reflexivity. Defined.

(** X23. Relative positions chain, in exact arithmetic: whenever the
    position of B relative to A and the position of C relative to B are
    returned, the position of C relative to A is their componentwise sum;
    and for the central body and bodies on regular orbits, at an instant
    with a valid date and a finite Julian Day, the three are returned, with
    enough fuel for the solver. *)
Theorem relative_positions_chain :
  forall (planetA planetB planetC : Planet) (spaceTime : SpaceTime),
    (forall (fuel : nat) (w : Console) (ab bc : OrbitalPosition),
        value (calculateRelativePosition fuel planetA planetB spaceTime) w
        = Some (Ok ab) ->
        value (calculateRelativePosition fuel planetB planetC spaceTime) w
        = Some (Ok bc) ->
        value (calculateRelativePosition fuel planetA planetC spaceTime) w
        = Some (Ok (translate ab bc)))
    /\ (placedBody planetA -> placedBody planetB -> placedBody planetC ->
        regularInstant spaceTime ->
        exists fuel : nat,
          forall (fuel' : nat) (w : Console), (fuel <= fuel')%nat ->
            exists ab bc : OrbitalPosition,
              value (calculateRelativePosition fuel' planetA planetB spaceTime) w
              = Some (Ok ab)
              /\ value (calculateRelativePosition fuel' planetB planetC spaceTime) w
                 = Some (Ok bc)
              /\ value (calculateRelativePosition fuel' planetA planetC spaceTime) w
                 = Some (Ok (translate ab bc))).
Proof.
  intros planetA planetB planetC spaceTime.
  assert (Hchain : forall (fuel : nat) (w : Console) (ab bc : OrbitalPosition),
             value (calculateRelativePosition fuel planetA planetB spaceTime) w
             = Some (Ok ab) ->
             value (calculateRelativePosition fuel planetB planetC spaceTime) w
             = Some (Ok bc) ->
             value (calculateRelativePosition fuel planetA planetC spaceTime) w
             = Some (Ok (translate ab bc))).
  { intros fuel w ab bc.
    rewrite !value_calculateRelativePosition.
    destruct (position fuel planetA spaceTime) as [pA |] eqn:HA; [| discriminate].
    destruct (position fuel planetB spaceTime) as [pB |] eqn:HB; [| discriminate].
    destruct (position fuel planetC spaceTime) as [pC |] eqn:HC; [| discriminate].
    destruct (position_finite _ _ _ _ HA) as [XA [YA [ZA ->]]].
    destruct (position_finite _ _ _ _ HB) as [XB [YB [ZB ->]]].
    destruct (position_finite _ _ _ _ HC) as [XC [YC [ZC ->]]].
    intros [= <-] [= <-].
    unfold translate, difference. cbn [x y z]. rewrite !sub_Fin, !add_Fin.
    do 3 f_equal; f_equal; ring. }
  split; [exact Hchain |].
  intros HA HB HC Hinstant.
  destruct (placed_position_returns planetA spaceTime HA Hinstant) as [fuelA HfA].
  destruct (placed_position_returns planetB spaceTime HB Hinstant) as [fuelB HfB].
  destruct (placed_position_returns planetC spaceTime HC Hinstant) as [fuelC HfC].
  exists (Nat.max fuelA (Nat.max fuelB fuelC)). intros fuel' w Hle.
  destruct (HfA fuel' ltac:(lia)) as [pA HpA].
  destruct (HfB fuel' ltac:(lia)) as [pB HpB].
  destruct (HfC fuel' ltac:(lia)) as [pC HpC].
  assert (Hab : value (calculateRelativePosition fuel' planetA planetB spaceTime) w
                = Some (Ok (difference pB pA)))
    by (rewrite value_calculateRelativePosition, HpA, HpB; reflexivity).
  assert (Hbc : value (calculateRelativePosition fuel' planetB planetC spaceTime) w
                = Some (Ok (difference pC pB)))
    by (rewrite value_calculateRelativePosition, HpB, HpC; reflexivity).
  exists (difference pB pA), (difference pC pB).
  repeat split; [exact Hab | exact Hbc | exact (Hchain fuel' w _ _ Hab Hbc)].
Qed.

Lemma regularOrbit_mercury : regularOrbit mercury.
Proof.
  exists (8 / 10), (205630 / 1000000), (87969 / 1000).
  repeat split; try reflexivity; lra.
Qed.

Lemma regularOrbit_venus : regularOrbit venus.
Proof.
  exists (12 / 10), (6772 / 1000000), (224701 / 1000).
  repeat split; try reflexivity; lra.
Qed.

Lemma regularOrbit_earth : regularOrbit earth.
Proof.
  exists (15 / 10), (16708 / 1000000), (365256 / 1000).
  repeat split; try reflexivity; lra.
Qed.

Lemma regularOrbit_mars : regularOrbit mars.
Proof.
  exists 2, (93400 / 1000000), (686980 / 1000).
  repeat split; try reflexivity; lra.
Qed.

Lemma regularInstant_epoch : regularInstant epoch.
Proof. split; reflexivity. Qed.

Lemma relative_positions_chain_witness :
  exists (fuel : nat) (ab bc : OrbitalPosition),
    value (calculateRelativePosition fuel mercury earth epoch) [] = Some (Ok ab)
    /\ value (calculateRelativePosition fuel earth mars epoch) [] = Some (Ok bc)
    /\ value (calculateRelativePosition fuel mercury mars epoch) []
       = Some (Ok (translate ab bc)).
Proof.
  destruct (relative_positions_chain mercury earth mars epoch) as [_ Hreturns].
  destruct Hreturns as [fuel Hfuel].
  - right. exact regularOrbit_mercury.
  - right. exact regularOrbit_earth.
  - right. exact regularOrbit_mars.
  - exact regularInstant_epoch.
  - destruct (Hfuel fuel [] (le_n fuel)) as [ab [bc Hchain]].
    exists fuel, ab, bc. exact Hchain.
Defined.

(** ** All planets about a centre planet *)

Section MapIO.

Context {A B : Type}.
Variable f : A -> IO B.

(** What [mapIO] returns holds, in order, one value returned by the
    callback for each element. *)
Lemma mapIO_returns (l : list A) :
  forall (w : Console) (bs : list B) (w' : Console),
    mapIO f l w = Some (Ok bs, w') ->
    Forall2 (fun a b => exists w1 w2, f a w1 = Some (Ok b, w2)) l bs.
Proof.
  induction l as [| a rest IH]; intros w bs w' Hrun.
  - injection Hrun as <- _. constructor.
  - cbn [mapIO] in Hrun. unfold bind in Hrun.
    destruct (f a w) as [[[b | err] w1] |] eqn:Hfa; try discriminate.
    destruct (mapIO f rest w1) as [[[bs' | err] w2] |] eqn:Hrest;
      try discriminate.
    injection Hrun as <- _.
    constructor; [now exists w, w1 | exact (IH w1 bs' w2 Hrest)].
Qed.

End MapIO.

(** Where the callback returns for every element and every console, so
    does [mapIO]. *)
Lemma mapIO_total {A B : Type} (f : A -> IO B) (l : list A) :
  Forall (fun a => forall w : Console, exists (b : B) (w' : Console),
                     f a w = Some (Ok b, w')) l ->
  forall w : Console, exists (bs : list B) (w' : Console),
    mapIO f l w = Some (Ok bs, w').
Proof.
  intros Hall. induction Hall as [| a rest Ha Hrest IH]; intros w.
  - exists [], w. reflexivity.
  - destruct (Ha w) as [b [w1 Hb]]. destruct (IH w1) as [bs [w2 Hbs]].
    exists (b :: bs), w2. cbn [mapIO]. unfold bind. now rewrite Hb, Hbs.
Qed.

(** X24. [calculateRelativePlanetPositions] keeps the planets whose name
    differs from the centre planet's, in their order, and pairs each with
    its position relative to the centre: no entry bears the name of the
    centre planet.  For a list of bodies that are the central body or on
    regular orbits, about such a body and at an instant with a valid date
    and a finite Julian Day, the function does return this list, with
    enough fuel for the solver (in exact arithmetic). *)
Theorem relative_planet_positions_entries :
  forall (planets : list Planet) (centerPlanet : Planet) (spaceTime : SpaceTime),
    (forall (fuel : nat) (w : Console) (entries : list RelativeEntry),
        value (calculateRelativePlanetPositions fuel planets centerPlanet
                 spaceTime) w
        = Some (Ok entries) ->
        map entryPlanet entries
        = filter (fun planet =>
                    negb (String.eqb (name planet) (name centerPlanet)))
            planets
        /\ Forall (fun entry =>
                     name (entryPlanet entry) <> name centerPlanet
                     /\ forall w0 : Console,
                          value (calculateRelativePosition fuel centerPlanet
                                   (entryPlanet entry) spaceTime) w0
                          = Some (Ok (entryPosition entry)))
             entries)
    /\ (Forall placedBody planets -> placedBody centerPlanet ->
        regularInstant spaceTime ->
        exists fuel : nat,
          forall (fuel' : nat) (w : Console), (fuel <= fuel')%nat ->
            exists entries : list RelativeEntry,
              value (calculateRelativePlanetPositions fuel' planets centerPlanet
                       spaceTime) w
              = Some (Ok entries)).
Proof.
  intros planets centerPlanet spaceTime. split.
  - intros fuel w entries Hrun.
    unfold value, calculateRelativePlanetPositions in Hrun.
    set (others := filter _ planets) in *.
    destruct (mapIO _ others w) as [[[es | err] w'] |] eqn:Hmap;
      simpl in Hrun; try discriminate.
    injection Hrun as ->.
    apply mapIO_returns in Hmap.
    assert (Hothers : Forall (fun planet => name planet <> name centerPlanet) others).
    { apply Forall_forall. intros planet Hin. apply filter_In in Hin.
      destruct Hin as [_ Hneq]. apply negb_true_iff, String.eqb_neq in Hneq.
      exact Hneq. }
    clearbody others.
    induction Hmap as [| planet entry rest es [w1 [w2 Hf]] Hrest IH].
    + split; constructor.
    + inversion Hothers as [| ? ? Hneq Hothers']; subst.
      destruct (IH Hothers') as [IHmap IHall].
      unfold bind in Hf.
      destruct (calculateRelativePosition fuel centerPlanet planet spaceTime w1)
        as [[[pos | err] w3] |] eqn:Hrel; try discriminate.
      injection Hf as <- _. cbn [map entryPlanet entryPosition].
      split; [now rewrite IHmap |].
      constructor; [| exact IHall].
      cbn [entryPlanet entryPosition]. split; [exact Hneq |].
      intros w0.
      assert (Hvalue : value (calculateRelativePosition fuel centerPlanet planet
                                spaceTime) w1 = Some (Ok pos))
        by (unfold value; now rewrite Hrel).
      rewrite value_calculateRelativePosition in *. exact Hvalue.
  - intros Hplanets Hcenter Hinstant.
    destruct (placed_positions_return planets spaceTime Hplanets Hinstant)
      as [fuelAll HfuelAll].
    destruct (placed_position_returns centerPlanet spaceTime Hcenter Hinstant)
      as [fuelCenter HfuelCenter].
    exists (Nat.max fuelAll fuelCenter). intros fuel' w Hle.
    destruct (HfuelCenter fuel' ltac:(lia)) as [posCenter HposCenter].
    pose proof (HfuelAll fuel' ltac:(lia)) as Hall.
    unfold calculateRelativePlanetPositions.
    set (others := filter _ planets).
    assert (Hothers : Forall (fun planet =>
                         exists pos : OrbitalPosition,
                           position fuel' planet spaceTime = Some pos) others).
    { apply Forall_forall. intros planet Hin. apply filter_In in Hin.
      destruct Hin as [Hin _]. rewrite Forall_forall in Hall. now apply Hall. }
    clearbody others.
    match goal with
    | |- context [mapIO ?f others] =>
        destruct (mapIO_total f others) with (w := w) as [entries [w' Hmap]]
    end.
    + apply Forall_forall. intros planet Hin w0.
      rewrite Forall_forall in Hothers. destruct (Hothers planet Hin) as [pos Hpos].
      pose proof (value_calculateRelativePosition fuel' centerPlanet planet
                    spaceTime w0) as Hvalue.
      rewrite HposCenter, Hpos in Hvalue. unfold value in Hvalue.
      unfold bind.
      destruct (calculateRelativePosition fuel' centerPlanet planet spaceTime w0)
        as [[[rel | err] w1] |]; simpl in Hvalue; try discriminate.
      eexists. eexists. reflexivity.
    + exists entries. unfold value. now rewrite Hmap.
Qed.

Lemma relative_planet_positions_entries_witness :
  exists (fuel : nat) (entries : list RelativeEntry),
    value (calculateRelativePlanetPositions fuel [sun; mercury; venus; earth; mars]
             earth epoch) []
    = Some (Ok entries)
    /\ map entryPlanet entries = [sun; mercury; venus; mars]
    /\ Forall (fun entry =>
                 name (entryPlanet entry) <> name earth
                 /\ forall w0 : Console,
                      value (calculateRelativePosition fuel earth
                               (entryPlanet entry) epoch) w0
                      = Some (Ok (entryPosition entry)))
         entries.
Proof.
  destruct (relative_planet_positions_entries [sun; mercury; venus; earth; mars]
              earth epoch) as [Hentries Hreturns].
  destruct Hreturns as [fuel Hfuel].
  - apply Forall_cons; [left; reflexivity |].
    apply Forall_cons; [right; exact regularOrbit_mercury |].
    apply Forall_cons; [right; exact regularOrbit_venus |].
    apply Forall_cons; [right; exact regularOrbit_earth |].
    apply Forall_cons; [right; exact regularOrbit_mars |].
    apply Forall_nil.
  - right. exact regularOrbit_earth.
  - exact regularInstant_epoch.
  - destruct (Hfuel fuel [] (le_n fuel)) as [entries Hrun].
    destruct (Hentries fuel [] entries Hrun) as [Hmap Hall].
    exists fuel, entries. repeat split; [exact Hrun | exact Hmap | exact Hall].
Defined.

(** X25. [findPlanetByName] returns the first planet of the list that bears
    the name, and nothing exactly when no planet of the list bears it. *)
Theorem findPlanetByName_spec :
  forall (planets : list Planet) (name_ : string),
    match findPlanetByName planets name_ with
    | Some planet =>
        exists before after : list Planet,
          planets = before ++ planet :: after
          /\ name planet = name_
          /\ Forall (fun other => name other <> name_) before
    | None => Forall (fun other => name other <> name_) planets
    end.
Proof.
  intros planets name_. unfold findPlanetByName.
  induction planets as [| first rest IH]; [constructor |].
  cbn [find]. destruct (String.eqb (name first) name_) eqn:Heq.
  - apply String.eqb_eq in Heq. exists [], rest. repeat split; [exact Heq | constructor].
  - apply String.eqb_neq in Heq.
    destruct (find _ rest) as [planet |].
    + destruct IH as [before [after [-> [Hname Hbefore]]]].
      exists (first :: before), after. repeat split; [exact Hname |].
      now constructor.
    + now constructor.
Qed.

(** ** The zoom level *)

Lemma handleZoomIn_range (z : R) :
  1 / 10 <= z <= 5 ->
  exists z' : R, handleZoomIn (Fin z) = Fin z' /\ 1 / 10 <= z' <= 5 /\ z <= z'.
Proof.
  intros Hz. unfold handleZoomIn. rewrite add_Fin. unfold Math.min, lt.
  destruct (Rltb 5 (z + 2 / 10)) eqn:Hcmp.
  - exists 5. repeat split; lra.
  - exists (z + 2 / 10). unfold Rltb in Hcmp.
    destruct (Rlt_dec 5 (z + 2 / 10)); [discriminate |]. repeat split; lra.
Qed.

Lemma handleZoomOut_range (z : R) :
  1 / 10 <= z <= 5 ->
  exists z' : R, handleZoomOut (Fin z) = Fin z' /\ 1 / 10 <= z' <= 5 /\ z' <= z.
Proof.
  intros Hz. unfold handleZoomOut. rewrite sub_Fin. unfold Math.max, lt.
  destruct (Rltb (z - 2 / 10) (1 / 10)) eqn:Hcmp.
  - exists (1 / 10). repeat split; lra.
  - exists (z - 2 / 10). unfold Rltb in Hcmp.
    destruct (Rlt_dec (z - 2 / 10) (1 / 10)); [discriminate |].
    repeat split; lra.
Qed.

(** X26. The zoom level stays within the limits of the buttons: from a
    level between 0.1 and 5, any series of zoom-in and zoom-out clicks
    leaves a finite level between 0.1 and 5. *)
Theorem zoom_level_stays_in_range :
  forall (actions : list ZoomAction) (z : R),
    1 / 10 <= z <= 5 ->
    exists z' : R,
      fold_left applyZoom actions (Fin z) = Fin z' /\ 1 / 10 <= z' <= 5.
Proof.
  induction actions as [| action rest IH]; intros z Hz.
  - now exists z.
  - cbn [fold_left]. destruct action; cbn [applyZoom].
    + destruct (handleZoomIn_range z Hz) as [z1 [-> [Hz1 _]]]. now apply IH.
    + destruct (handleZoomOut_range z Hz) as [z1 [-> [Hz1 _]]]. now apply IH.
Qed.

Lemma zoom_level_stays_in_range_witness :
  exists z' : R,
    fold_left applyZoom [ZoomIn; ZoomIn; ZoomOut] (Fin 1) = Fin z'
    /\ 1 / 10 <= z' <= 5.
Proof. apply zoom_level_stays_in_range. lra. Defined.

(** ** The moons *)

(** X27. In exact arithmetic a moon is drawn on a circle about its planet:
    for finite data and an orbital period that is not 0, the moon has the
    y-coordinate of the planet, and its distance from the planet in the x-z
    plane is the semi-major axis divided by 500000, whatever the
    eccentricity and the inclination of the moon.  The equation is that of
    the exact values; in binary64 it holds up to rounding. *)
Theorem moon_on_circle_about_planet :
  forall (moon : MoonData.Moon) (spaceTime : SpaceTime)
         (a_ P_ m_ jd_ px py pz : R),
    MoonData.semiMajorAxis moon = Fin a_ ->
    MoonData.orbitalPeriod moon = Fin P_ ->
    MoonData.meanAnomaly moon = Fin m_ ->
    julianDay spaceTime = Fin jd_ ->
    P_ <> 0 ->
    exists X Z : R,
      moon3DPosition moon {| x := Fin px; y := Fin py; z := Fin pz |} spaceTime
      = {| x := Fin X; y := Fin py; z := Fin Z |}
      /\ (X - px) * (X - px) + (Z - pz) * (Z - pz)
         = a_ / 500000 * (a_ / 500000).
Proof.
  intros moon spaceTime a_ P_ m_ jd_ px py pz Ha HP Hm Hjd HP0.
  unfold moon3DPosition. cbn [x y z]. rewrite Ha, HP, Hm, Hjd.
  rewrite rem_Fin by exact HP0. rewrite (div_Fin _ P_) by exact HP0.
  js_eval.
  set (t := (jd_ - P_ * Rtrunc (jd_ / P_)) / P_ * 2 * PI + m_ * PI / 180).
  do 2 eexists. split; [reflexivity |].
  pose proof (sin2_cos2 t) as Ht. unfold Rsqr in Ht.
  replace ((px + a_ / 500000 * cos t - px) * (px + a_ / 500000 * cos t - px)
           + (pz + a_ / 500000 * sin t - pz) * (pz + a_ / 500000 * sin t - pz))
    with (a_ / 500000 * (a_ / 500000) * (sin t * sin t + cos t * cos t)) by ring.
  rewrite Ht. ring.
Qed.

Lemma moon_on_circle_about_planet_witness :
  exists X Z : R,
    moon3DPosition io {| x := Fin 5; y := Fin 0; z := Fin 1 |}
      {| date := validDate; julianDay := Fin 2451545 |}
    = {| x := Fin X; y := Fin 0; z := Fin Z |}
    /\ (X - 5) * (X - 5) + (Z - 1) * (Z - 1)
       = 421700 / 500000 * (421700 / 500000).
Proof.
  apply (moon_on_circle_about_planet io
           {| date := validDate; julianDay := Fin 2451545 |}
           421700 (177 / 100) 0 2451545 5 0 1); try reflexivity; lra.
Defined.

(** ** Periodicity in time *)

(** Adding 1 to a real adds 1 to its truncation, except between -1 and 0,
    where both truncations are 0. *)
Lemma Rtrunc_succ (t : R) :
  exists k : Z,
    (k = 0 \/ k = 1)%Z /\ Rtrunc (t + 1) = Rtrunc t + 1 - IZR k.
Proof.
  assert (Hshift : forall u, Int_part (u + 1) = (Int_part u + 1)%Z).
  { intros u. symmetry. apply Int_part_spec.
    destruct (base_Int_part u) as [Hlo Hhi]. rewrite plus_IZR. lra. }
  unfold Rtrunc.
  destruct (Rle_dec 0 t) as [Hpos | Hneg].
  - destruct (Rle_dec 0 (t + 1)); [| lra].
    exists 0%Z. split; [now left |]. rewrite Hshift, plus_IZR. lra.
  - destruct (Rle_dec 0 (t + 1)) as [Hpos1 | Hneg1].
    + assert (H0 : Int_part (t + 1) = 0%Z)
        by (symmetry; apply Int_part_spec; lra).
      rewrite H0.
      destruct (Req_dec_T t (-1)) as [-> | Hne].
      * exists 0%Z. split; [now left |].
        replace (- -1) with 1 by ring.
        assert (H1 : Int_part 1 = 1%Z) by (symmetry; apply Int_part_spec; lra).
        rewrite H1. lra.
      * exists 1%Z. split; [now right |].
        assert (H1 : Int_part (- t) = 0%Z)
          by (symmetry; apply Int_part_spec; lra).
        rewrite H1. lra.
    + exists 0%Z. split; [now left |].
      replace (- t) with (- (t + 1) + 1) by ring.
      rewrite Hshift, plus_IZR. lra.
Qed.

(** The remainder after one more divisor: the same, or one divisor more. *)
Lemma rem_after_period (r s : R) :
  s <> 0 ->
  exists k : Z,
    (k = 0 \/ k = 1)%Z
    /\ (r + s) - s * Rtrunc ((r + s) / s) = (r - s * Rtrunc (r / s)) + IZR k * s.
Proof.
  intros Hs. destruct (Rtrunc_succ (r / s)) as [k [Hk Htr]].
  exists k. split; [exact Hk |].
  replace ((r + s) / s) with (r / s + 1) by (field; exact Hs).
  rewrite Htr. ring.
Qed.

Lemma cos_sin_add_turns (t : R) (k : Z) (n : number) :
  Math.cos (add (Fin (t + 2 * IZR k * PI)) n) = Math.cos (add (Fin t) n)
  /\ Math.sin (add (Fin (t + 2 * IZR k * PI)) n) = Math.sin (add (Fin t) n).
Proof.
  destruct n as [q | | |]; try (split; reflexivity).
  rewrite !add_Fin, !sin_Fin, !cos_Fin.
  replace (t + 2 * IZR k * PI + q) with (t + q + 2 * IZR k * PI) by ring.
  destruct (isPeriod_Z k (t + q)) as [-> ->]. split; reflexivity.
Qed.

(** X28. The position of a moon repeats after one orbital period of the
    moon, for every period that is not 0. *)
Theorem moon_position_periodic :
  forall (moon : MoonData.Moon) (planetPosition : OrbitalPosition)
         (spaceTime later : SpaceTime) (P_ jd_ : R),
    MoonData.orbitalPeriod moon = Fin P_ -> P_ <> 0 ->
    julianDay spaceTime = Fin jd_ ->
    julianDay later = Fin (jd_ + P_) ->
    moon3DPosition moon planetPosition later
    = moon3DPosition moon planetPosition spaceTime.
Proof.
  intros moon planetPosition spaceTime later P_ jd_ HP HP0 Hjd Hlater.
  unfold moon3DPosition. rewrite HP, Hjd, Hlater.
  rewrite !rem_Fin by exact HP0. rewrite !(div_Fin _ P_) by exact HP0.
  js_eval.
  destruct (rem_after_period jd_ P_ HP0) as [k [_ ->]].
  replace ((jd_ - P_ * Rtrunc (jd_ / P_) + IZR k * P_) / P_ * 2 * PI)
    with ((jd_ - P_ * Rtrunc (jd_ / P_)) / P_ * 2 * PI + 2 * IZR k * PI)
    by (field; exact HP0).
  destruct (cos_sin_add_turns ((jd_ - P_ * Rtrunc (jd_ / P_)) / P_ * 2 * PI) k
              (div (mul (MoonData.meanAnomaly moon) (Fin PI)) (Fin 180)))
    as [-> ->].
  reflexivity.
Qed.

Lemma moon_position_periodic_witness :
  moon3DPosition io origin
    {| date := validDate; julianDay := Fin (2451545 + 177 / 100) |}
  = moon3DPosition io origin {| date := validDate; julianDay := Fin 2451545 |}.
Proof.
  apply (moon_position_periodic io origin _ _ (177 / 100) 2451545);
    try reflexivity; lra.
Defined.

(** One more turn of the eccentric anomaly moves the true anomaly by a
    whole number of turns: at a pole of the tangent from [PI] to [- PI] or
    back, elsewhere not at all. *)
Lemma trueAnomaly_next_turn (e E nu : R) :
  0 <= e < 1 ->
  trueAnomalyOf e E = Fin nu ->
  exists nu' : R,
    trueAnomalyOf e (E + 2 * PI) = Fin nu'
    /\ forall u : R, cos (u + nu') = cos (u + nu) /\ sin (u + nu') = sin (u + nu).
Proof.
  intros He. unfold trueAnomalyOf.
  assert (Hq : 0 < (1 + e) / (1 - e)) by (apply Rdiv_lt_0_compat; lra).
  rewrite sqrt_Fin by lra.
  pose proof (sqrt_lt_R0 _ Hq) as Hs.
  replace ((E + 2 * PI) / 2) with (E / 2 + PI) by field.
  unfold Math.tan, Rtrigo1.tan. rewrite neg_cos, neg_sin.
  pose proof (cos_sin_0 (E / 2)) as Hnot.
  destruct (Req_dec_T (cos (E / 2)) 0) as [Hc | Hc].
  - rewrite Hc, Ropp_0, Reqb_refl.
    assert (Hsin : sin (E / 2) <> 0) by tauto.
    destruct (Rlt_dec 0 (sin (E / 2))) as [Hpos | Hneg].
    + rewrite (Rltb_lt _ _ Hpos), Rltb_ge by lra.
      unfold mul, scaleInf, Math.atan. rewrite (Rltb_lt _ _ Hs). cbn [neg].
      intros Hnu. injection Hnu as <-.
      eexists. split; [reflexivity |]. intros u.
      replace (u + 2 * (PI / 2)) with (u + 2 * - (PI / 2) + 2 * IZR 1 * PI)
        by field.
      destruct (isPeriod_Z 1 (u + 2 * - (PI / 2))) as [-> ->].
      split; reflexivity.
    + rewrite (Rltb_ge 0 (sin (E / 2))) by lra.
      rewrite Rltb_lt by lra.
      unfold mul, scaleInf, Math.atan. rewrite (Rltb_lt _ _ Hs). cbn [neg].
      intros Hnu. injection Hnu as <-.
      eexists. split; [reflexivity |]. intros u.
      replace (u + 2 * (PI / 2)) with (u + 2 * - (PI / 2) + 2 * IZR 1 * PI)
        by field.
      destruct (isPeriod_Z 1 (u + 2 * - (PI / 2))) as [-> ->].
      split; reflexivity.
  - rewrite !Reqb_neq by lra.
    replace (- sin (E / 2) / - cos (E / 2)) with (sin (E / 2) / cos (E / 2))
      by (field; exact Hc).
    intros Hnu. exists nu. split; [exact Hnu |]. intros u. split; reflexivity.
Qed.

Section ExactPosition.

Variable planet : Planet.
Variable spaceTime : SpaceTime.
Variables a_ e_ i_ node_ w_ m_ P_ jd_ : R.
Hypothesis Hdate : isNaN (getTime (date spaceTime)) = false.
Hypothesis Hjd : julianDay spaceTime = Fin jd_.
Hypothesis Ha : semiMajorAxis planet = Fin a_.
Hypothesis He : eccentricity planet = Fin e_.
Hypothesis Hi : inclination planet = Fin i_.
Hypothesis Hnode : longitudeOfAscendingNode planet = Fin node_.
Hypothesis Hw : argumentOfPeriapsis planet = Fin w_.
Hypothesis Hm : meanAnomaly planet = Fin m_.
Hypothesis HP : orbitalPeriod planet = Fin P_.
Hypothesis Ha0 : 0 < a_.
Hypothesis He01 : 0 <= e_ < 1.
Hypothesis HP0 : 0 < P_.

Ltac run := cbn [liftFuel when isNaN isFinite orb negb ret console_error].

(** The position in terms of the eccentric anomaly [E] of the solver and
    the true anomaly [nu] obtained from it. *)
Lemma position_of_anomalies (fuel : nat) (w : Console) (E nu : R) :
  solveKepler fuel (Fin (meanAnomalyRadians m_ P_ jd_)) (Fin e_) defaultTolerance
  = Some (Fin E) ->
  trueAnomalyOf e_ E = Fin nu ->
  value (calculatePlanetPosition fuel planet spaceTime) w
  = Some (Ok (pointAt i_ node_ (a_ * (1 - e_ * cos E)) (w_ * PI / 180 + nu))).
Proof.
  intros Hsolve Hnu.
  unfold value, calculatePlanetPosition, tryCatch, bind, toISOString.
  rewrite Hdate, Hjd, Ha, He, Hi, Hnode, Hw, Hm, HP.
  cbv zeta. simpl. rewrite Reqb_neq by lra.
  js_eval. rewrite ?(div_Fin _ P_) by lra.
  js_eval. rewrite rem_Fin by lra.
  fold (meanAnomalyDegrees m_ P_ jd_). run. rewrite !degToRad_Fin.
  fold (meanAnomalyRadians m_ P_ jd_).
  rewrite Hsolve. run. js_eval.
  unfold trueAnomalyOf in Hnu. rewrite Hnu. run. js_eval. run.
  unfold pointAt.
  destruct (lt (Fin (a_ * (1 - e_ * cos E))) (Fin 0));
    run; rewrite !degToRad_Fin; js_eval; run; rewrite !degToRad_Fin; js_eval;
    cbn [isNaN isFinite orb negb ret option_map fst]; reflexivity.
Qed.

End ExactPosition.

(** One orbital period later the reduced mean anomaly is the same, or one
    turn more. *)
Lemma meanAnomalyRadians_next_period (m_ P_ jd_ : R) :
  P_ <> 0 ->
  exists k : Z,
    (k = 0 \/ k = 1)%Z
    /\ meanAnomalyRadians m_ P_ (jd_ + P_)
       = meanAnomalyRadians m_ P_ jd_ + 2 * IZR k * PI.
Proof.
  intros HP. unfold meanAnomalyRadians, meanAnomalyDegrees. cbv zeta.
  replace (m_ + 360 * (jd_ + P_ - 2451545) / P_)
    with (m_ + 360 * (jd_ - 2451545) / P_ + 360) by (field; exact HP).
  assert (H360 : 360 <> 0) by lra.
  destruct (rem_after_period (m_ + 360 * (jd_ - 2451545) / P_) 360 H360)
    as [k [Hk ->]].
  exists k. split; [exact Hk | field; exact HP].
Qed.

(** X29. The position of a body on an elliptic orbit repeats after one
    orbital period: for elements with a > 0, 0 <= e < 1, finite angles and
    orbitalPeriod > 0, [calculatePlanetPosition] gives at Julian Day
    [jd + orbitalPeriod] what it gives at Julian Day [jd], in exact
    arithmetic, whatever the two (valid) dates and consoles; and it has not
    returned at the one instant when it has not at the other. *)
Theorem planet_position_periodic :
  forall (planet : Planet) (spaceTime later : SpaceTime)
         (a_ e_ i_ node_ w_ m_ P_ jd_ : R),
    isNaN (getTime (date spaceTime)) = false ->
    isNaN (getTime (date later)) = false ->
    julianDay spaceTime = Fin jd_ ->
    julianDay later = Fin (jd_ + P_) ->
    semiMajorAxis planet = Fin a_ ->
    eccentricity planet = Fin e_ ->
    inclination planet = Fin i_ ->
    longitudeOfAscendingNode planet = Fin node_ ->
    argumentOfPeriapsis planet = Fin w_ ->
    meanAnomaly planet = Fin m_ ->
    orbitalPeriod planet = Fin P_ ->
    0 < a_ -> 0 <= e_ < 1 -> 0 < P_ ->
    forall (fuel : nat) (w w' : Console),
      value (calculatePlanetPosition fuel planet later) w'
      = value (calculatePlanetPosition fuel planet spaceTime) w.
Proof.
  intros planet spaceTime later a_ e_ i_ node_ w_ m_ P_ jd_
         Hdate Hdate' Hjd Hjd' Ha He Hi Hnode Hw Hm HP Ha0 He01 HP0 fuel w w'.
  pose proof (position_of_anomalies planet spaceTime a_ e_ i_ node_ w_ m_ P_ jd_
                Hdate Hjd Ha He Hi Hnode Hw Hm HP Ha0 He01 HP0 fuel w) as Hnow.
  pose proof (position_of_anomalies planet later a_ e_ i_ node_ w_ m_ P_ (jd_ + P_)
                Hdate' Hjd' Ha He Hi Hnode Hw Hm HP Ha0 He01 HP0 fuel w') as Hthen.
  pose proof (position_waits_for_solver planet spaceTime a_ e_ i_ node_ w_ m_ P_
                jd_ Hdate Hjd Ha He Hi Hnode Hw Hm HP Ha0 He01 HP0 fuel w)
    as Hwait.
  pose proof (position_waits_for_solver planet later a_ e_ i_ node_ w_ m_ P_
                (jd_ + P_) Hdate' Hjd' Ha He Hi Hnode Hw Hm HP Ha0 He01 HP0
                fuel w') as Hwait'.
  assert (HPne : P_ <> 0) by lra.
  destruct (meanAnomalyRadians_next_period m_ P_ jd_ HPne) as [k [Hk HM]].
  rewrite HM in Hthen, Hwait'.
  set (Mrad := meanAnomalyRadians m_ P_ jd_) in *.
  assert (Hshift :
    solveKepler fuel (Fin (Mrad + 2 * IZR k * PI)) (Fin e_) defaultTolerance
    = option_map (fun res => add res (Fin (2 * IZR k * PI)))
        (solveKepler fuel (Fin Mrad) (Fin e_) defaultTolerance)).
  { unfold solveKepler, defaultTolerance.
    apply keplerLoop_shift; [exact He01 | apply isPeriod_Z]. }
  destruct (solveKepler fuel (Fin Mrad) (Fin e_) defaultTolerance)
    as [res |] eqn:Hsolve.
  - destruct (keplerLoop_exit Mrad e_ He01 _ fuel Mrad res Hsolve) as [E0 [-> _]].
    set (E := E0 + newtonDelta Mrad e_ E0) in *.
    cbn [option_map] in Hshift. rewrite add_Fin in Hshift.
    destruct (trueAnomaly_finite e_ E He01) as [nu Hnu].
    revert Hnu. js_eval. fold (trueAnomalyOf e_ E). intros Hnu.
    rewrite (Hnow E nu eq_refl Hnu).
    assert (Hnu' : exists nu' : R,
               trueAnomalyOf e_ (E + 2 * IZR k * PI) = Fin nu'
               /\ forall u : R,
                    cos (u + nu') = cos (u + nu) /\ sin (u + nu') = sin (u + nu)).
    { destruct Hk as [-> | ->].
      - exists nu. replace (E + 2 * 0 * PI) with E by ring.
        split; [exact Hnu | intros u; split; reflexivity].
      - replace (E + 2 * 1 * PI) with (E + 2 * PI) by ring.
        apply trueAnomaly_next_turn; assumption. }
    destruct Hnu' as [nu' [Hnu' Hturn]].
    rewrite (Hthen _ nu' Hshift Hnu').
    unfold pointAt.
    destruct (Hturn (w_ * PI / 180)) as [-> ->].
    destruct (isPeriod_Z k E) as [_ ->].
    reflexivity.
  - cbn [option_map] in Hshift.
    now rewrite (Hwait' Hshift), (Hwait eq_refl).
Qed.

Lemma planet_position_periodic_witness :
  value (calculatePlanetPosition 20 earth
           {| date := validDate;
              julianDay := Fin (2451545 + 365256 / 1000) |})
    (consoleWith "earlier output")
  = value (calculatePlanetPosition 20 earth
             {| date := validDate; julianDay := Fin 2451545 |}) [].
Proof.
  apply (planet_position_periodic earth _ _ (15 / 10) (16708 / 1000000) 0
           (348739 / 1000) (114207 / 1000) (357517 / 1000) (365256 / 1000)
           2451545);
    try reflexivity; lra.
Defined.
